(** * War-scene generator: seeded PRNG, gradient noise and the drawing pipeline

    A shallow embedding of [src/app/page.tsx].

    Numbers.  The program computes with JavaScript numbers.  The integer
    paths (the PRNG state, table indices, loop counters) are embedded as [Z]
    with the 32-bit conversions of the bitwise operators written out.  The
    real-valued quantities (coordinates, noise values, random draws) are
    embedded as exact rationals [Q]: every finite double is a rational, and
    the arithmetic on them is carried out without rounding, so that a
    coordinate of the embedding and the coordinate the program computes may
    differ in their last bits.  Two quantities are computed as the program
    computes them, in binary64 ([PrimFloat]), because a statement depends on
    their exact value: the opacity of a smoke layer, which is written into
    the colour, and the number of ember candidates, which is the floor of a
    rounded product.  The variable of the two path loops is an exact
    rational as well: the number of turns of such a loop in doubles can be
    one less than here (see [for_x]), and no statement below depends on it.

    Effects.  The layer passes call the closure [random] and the methods of
    the 2D context.  A pass is embedded as a computation that threads the
    state of the generator and produces the list of context calls it makes;
    the context itself is a separate interpreter of such calls.  The
    exceptions of the host are not part of the embedding: a 2D context
    refuses a negative radius in [createRadialGradient] and [arc], which the
    program passes exactly when the width is negative. *)

From Stdlib Require Import ZArith QArith Qround Qabs Lqa Lia String.
From Stdlib Require Import Uint63 PrimFloat SpecFloat FloatOps.
From stdpp Require Import base option list.

#[local] Set Warnings "-inexact-float".

Local Open Scope Z_scope.

(** * Part I: the program *)

(** ** JavaScript 32-bit integer operators *)

Module JS.

Definition ToUint32 (z : Z) : Z := z mod 2 ^ 32.

Definition ToInt32 (z : Z) : Z := (z + 2 ^ 31) mod 2 ^ 32 - 2 ^ 31.

(** [a ^ b], [a | b], [a & b]: both operands go through ToInt32. *)
Definition bxor (a b : Z) : Z := Z.lxor (ToInt32 a) (ToInt32 b).

Definition bor (a b : Z) : Z := Z.lor (ToInt32 a) (ToInt32 b).

Definition band (a b : Z) : Z := Z.land (ToInt32 a) (ToInt32 b).

(** [a >>> n]: the left operand goes through ToUint32, the count is
    taken modulo 32. *)
Definition ushr (a n : Z) : Z := Z.shiftr (ToUint32 a) (Z.land n 31).

(** [Math.imul(a, b)]. *)
Definition imul (a b : Z) : Z := ToInt32 (ToInt32 a * ToInt32 b).

End JS.

(** [Math.floor] of a number, and [Math.PI] (the double nearest to pi,
    which is this rational). *)
Definition Math_floor (x : Q) : Z := Qfloor x.

Definition Math_PI : Q := 884279719003555 # 281474976710656.

(** [x < y] on numbers. *)
Definition Qltb (x y : Q) : bool := negb (Qle_bool y x).

(** ** Doubles

    The binary64 numbers of the kernel are the numbers of JavaScript; a
    decimal literal denotes the double nearest to it in both. *)

(** An integer as a double: exact below [2 ^ 53] in absolute value. *)
Definition double_of_Z (z : Z) : float :=
  if (0 <=? z)%Z then of_uint63 (Uint63.of_Z z)
  else (- of_uint63 (Uint63.of_Z (- z)))%float.

(** A number of the embedding as a double: exact when numerator and
    denominator are doubles, so for every integer below [2 ^ 53]. *)
Definition double_of_Q (q : Q) : float :=
  let q := Qred q in
  (double_of_Z (Qnum q) / double_of_Z (Z.pos (Qden q)))%float.

(** The rational a finite double is (0 for the others). *)
Definition double_value (f : float) : Q :=
  match Prim2SF f with
  | S754_finite s m e =>
      let n := if s then Z.neg m else Z.pos m in
      if (0 <=? e)%Z then inject_Z (n * 2 ^ e)
      else Qred (n # Z.to_pos (2 ^ (- e)))
  | _ => 0%Q
  end.

(** [Math.floor] of a finite double. *)
Definition Math_floor_double (f : float) : Z :=
  match Prim2SF f with
  | S754_finite s m e =>
      let n := if s then Z.neg m else Z.pos m in
      if (0 <=? e)%Z then (n * 2 ^ e)%Z else (n / 2 ^ (- e))%Z
  | _ => 0%Z
  end.

(** ** Uint8Array

    A typed array of fixed length.  A read outside the array gives
    [undefined] ([None]); a write outside it is ignored; a write stores the
    value modulo 256, and [undefined] is stored as 0. *)

Module Uint8Array.

Definition new (n : nat) : list Z := replicate n 0.

Definition get (a : list Z) (i : Z) : option Z :=
  if 0 <=? i then a !! Z.to_nat i else None.

Definition set (a : list Z) (i : Z) (v : option Z) : list Z :=
  if 0 <=? i then <[Z.to_nat i := default 0 v mod 256]> a else a.

(** [a[e]] where the index [e] is itself the result of arithmetic on a
    read: [undefined] propagates ([X + undefined] is NaN, and [a[NaN]] is
    [undefined]). *)
Definition get_at (a : list Z) (e : option Z) : option Z :=
  match e with
  | Some i => get a i
  | None => None
  end.

Definition plus (X : Z) (e : option Z) : option Z :=
  match e with
  | Some v => Some (X + v)
  | None => None
  end.

End Uint8Array.

(** ** mulberry32 *)

(** [let a = seed >>> 0]: the state captured by the closure. *)
Definition mulberry32 (seed : Z) : Z := JS.ushr seed 0.

(** One call of the closure returned by [mulberry32]: the value returned
    and the new content of [a]. *)
Definition mulberry32_call (a : Z) : Q * Z :=
  let a := JS.bor a 0 in
  let a := JS.bor (a + 0x6d2b79f5) 0 in
  let t := JS.imul (JS.bxor a (JS.ushr a 15)) (JS.bor 1 a) in
  let t := JS.bxor t (t + JS.imul (JS.bxor t (JS.ushr t 7)) (JS.bor 61 t)) in
  ((inject_Z (JS.ushr (JS.bxor t (JS.ushr t 14)) 0) / 4294967296)%Q, a).

(** The state of the closure after [n] calls. *)
Fixpoint mulberry32_state (n : nat) (a : Z) : Z :=
  match n with
  | O => a
  | S n' => mulberry32_state n' (snd (mulberry32_call a))
  end.

(** The algorithm in the words of the specification, on an unsigned
    32-bit state. *)
Module Mulberry32Spec.

Definition advance (a : Z) : Z := (a + 0x6D2B79F5) mod 2 ^ 32.

Definition mix (a : Z) : Z :=
  let t := (Z.lxor a (Z.shiftr a 15) * Z.lor a 1) mod 2 ^ 32 in
  let t :=
    (Z.lxor t ((t + Z.lxor t (Z.shiftr t 7) * Z.lor t 61) mod 2 ^ 32))
      mod 2 ^ 32 in
  Z.lxor t (Z.shiftr t 14) mod 2 ^ 32.

Definition output (a : Z) : Q := (inject_Z (mix a) / inject_Z (2 ^ 32))%Q.

End Mulberry32Spec.

(** ** The 2D context: calls made by the program *)

Inductive color : Type :=
  | Css (s : string)
  | Rgba (r g b : Z) (alpha : Q).

Inductive gradient : Type :=
  | LinearGradient (x0 y0 x1 y1 : Q) (stops : list (Q * color))
  | RadialGradient (x0 y0 r0 x1 y1 r1 : Q) (stops : list (Q * color)).

Definition createLinearGradient (x0 y0 x1 y1 : Q) : gradient :=
  LinearGradient x0 y0 x1 y1 [].

(** The host throws [IndexSizeError] when a radius is negative; here the
    gradient is made all the same.  [drawExplosion] passes the radii
    [radius * 0.1] and [radius] with [radius] between 0.12 and 0.2 times
    the width: they are negative exactly when the width is. *)
Definition createRadialGradient (x0 y0 r0 x1 y1 r1 : Q) : gradient :=
  RadialGradient x0 y0 r0 x1 y1 r1 [].

Definition addColorStop (g : gradient) (offset : Q) (c : color) : gradient :=
  match g with
  | LinearGradient x0 y0 x1 y1 stops =>
      LinearGradient x0 y0 x1 y1 (stops ++ [(offset, c)])
  | RadialGradient x0 y0 r0 x1 y1 r1 stops =>
      RadialGradient x0 y0 r0 x1 y1 r1 (stops ++ [(offset, c)])
  end.

Inductive style : Type :=
  | FillColor (c : color)
  | FillGradient (g : gradient).

Inductive composite : Type :=
  | SourceOver
  | Lighter.

Inductive call : Type :=
  | ClearRect (x y w h : Q)
  | FillRect (x y w h : Q)
  | SetFillStyle (s : style)
  | SetGlobalCompositeOperation (m : composite)
  | BeginPath
  | MoveTo (x y : Q)
  | LineTo (x y : Q)
  | Arc (x y radius startAngle endAngle : Q)
  | ClosePath
  | Fill
  | Save
  | Restore
  | Translate (x y : Q)
  | Rotate (angle : Q)
  | Scale (x y : Q).

(** ** The 2D context: what the calls do

    The context is a host object.  Its drawing state (fill style, composite
    mode, current transformation), the stack of saved drawing states, the
    current path and the paint applied to the surface are kept as the HTML
    canvas interface describes them.  The surface is kept as the sequence
    of paint applications, each with the drawing state in effect. *)

Inductive transform : Type :=
  | TTranslate (x y : Q)
  | TRotate (angle : Q)
  | TScale (x y : Q).

Inductive segment : Type :=
  | SegMove (x y : Q)
  | SegLine (x y : Q)
  | SegArc (x y radius startAngle endAngle : Q)
  | SegClose.

Record drawing_state : Type := {
  fillStyle : style;
  globalCompositeOperation : composite;
  ctm : list transform
}.

Inductive shape : Type :=
  | Rect (x y w h : Q)
  | Path (segments : list (list transform * segment)).

Inductive paint : Type :=
  | Cleared (t : list transform) (x y w h : Q)
  | Painted (mode : composite) (s : style) (t : list transform) (sh : shape).

Record context : Type := {
  current : drawing_state;
  saved : list drawing_state;
  path : list (list transform * segment);
  surface : list paint
}.

Definition default_drawing_state : drawing_state :=
  {| fillStyle := FillColor (Css "#000000");
     globalCompositeOperation := SourceOver;
     ctm := [] |}.

(** A context as the host hands it out for a fresh canvas. *)
Definition fresh_context : context :=
  {| current := default_drawing_state; saved := []; path := []; surface := [] |}.

Definition with_current (c : context) (d : drawing_state) : context :=
  {| current := d; saved := saved c; path := path c; surface := surface c |}.

Definition add_segment (c : context) (s : segment) : context :=
  {| current := current c; saved := saved c;
     path := path c ++ [(ctm (current c), s)]; surface := surface c |}.

Definition add_paint (c : context) (p : paint) : context :=
  {| current := current c; saved := saved c; path := path c;
     surface := surface c ++ [p] |}.

Definition add_transform (c : context) (t : transform) : context :=
  with_current c
    {| fillStyle := fillStyle (current c);
       globalCompositeOperation := globalCompositeOperation (current c);
       ctm := ctm (current c) ++ [t] |}.

Definition exec_call (c : context) (k : call) : context :=
  let d := current c in
  match k with
  | ClearRect x y w h => add_paint c (Cleared (ctm d) x y w h)
  | FillRect x y w h =>
      add_paint c
        (Painted (globalCompositeOperation d) (fillStyle d) (ctm d) (Rect x y w h))
  | SetFillStyle s =>
      with_current c
        {| fillStyle := s;
           globalCompositeOperation := globalCompositeOperation d;
           ctm := ctm d |}
  | SetGlobalCompositeOperation m =>
      with_current c
        {| fillStyle := fillStyle d; globalCompositeOperation := m; ctm := ctm d |}
  | BeginPath =>
      {| current := d; saved := saved c; path := []; surface := surface c |}
  | MoveTo x y => add_segment c (SegMove x y)
  | LineTo x y => add_segment c (SegLine x y)
  | Arc x y r a0 a1 => add_segment c (SegArc x y r a0 a1)
  | ClosePath => add_segment c SegClose
  | Fill =>
      add_paint c
        (Painted (globalCompositeOperation d) (fillStyle d) (ctm d) (Path (path c)))
  | Save =>
      {| current := d; saved := d :: saved c; path := path c; surface := surface c |}
  | Restore =>
      match saved c with
      | [] => c
      | d' :: rest =>
          {| current := d'; saved := rest; path := path c; surface := surface c |}
      end
  | Translate x y => add_transform c (TTranslate x y)
  | Rotate a => add_transform c (TRotate a)
  | Scale x y => add_transform c (TScale x y)
  end.

Definition exec (c : context) (calls : list call) : context :=
  foldl exec_call c calls.

(** The composite mode a paint application was made with ([clearRect]
    ignores the mode). *)
Definition paint_mode (p : paint) : option composite :=
  match p with
  | Cleared _ _ _ _ _ => None
  | Painted m _ _ _ => Some m
  end.

(** ** Gradient noise *)

Local Open Scope Q_scope.

Definition fade (t : Q) : Q := t * t * t * (t * (t * 6 - 15) + 10).

Definition lerp (t a b : Q) : Q := a + t * (b - a).

(** [hash] is the result of a table read; [undefined & 3] is 0. *)
Definition grad (hash : option Z) (x y : Q) : Q :=
  let h := JS.band (default 0%Z hash) 3 in
  let u := if (h <? 2)%Z then x else y in
  let v := if (h <? 2)%Z then y else x in
  (if (JS.band h 1 =? 0)%Z then u else - u)
  + (if (JS.band h 2 =? 0)%Z then v else - v).

(** The four table indices of the corner hashes at cell [(X, Y)]. *)
Definition index_aa (permutation : list Z) (X Y : Z) : option Z :=
  Uint8Array.plus X (Uint8Array.get permutation Y).

Definition index_ab (permutation : list Z) (X Y : Z) : option Z :=
  Uint8Array.plus X (Uint8Array.get permutation (Y + 1)).

Definition index_ba (permutation : list Z) (X Y : Z) : option Z :=
  Uint8Array.plus (X + 1) (Uint8Array.get permutation Y).

Definition index_bb (permutation : list Z) (X Y : Z) : option Z :=
  Uint8Array.plus (X + 1) (Uint8Array.get permutation (Y + 1)).

(** The function returned by [createPerlin], as a function of the table
    it closes over. *)
Definition noise (permutation : list Z) (x y : Q) : Q :=
  let X := JS.band (Math_floor x) 255 in
  let Y := JS.band (Math_floor y) 255 in
  let xf := x - inject_Z (Math_floor x) in
  let yf := y - inject_Z (Math_floor y) in
  let u := fade xf in
  let v := fade yf in
  let aa := Uint8Array.get_at permutation (index_aa permutation X Y) in
  let ab := Uint8Array.get_at permutation (index_ab permutation X Y) in
  let ba := Uint8Array.get_at permutation (index_ba permutation X Y) in
  let bb := Uint8Array.get_at permutation (index_bb permutation X Y) in
  let x1 := lerp u (grad aa xf yf) (grad ba (xf - 1) yf) in
  let x2 := lerp u (grad ab xf (yf - 1)) (grad bb (xf - 1) (yf - 1)) in
  (lerp v x1 x2 + 1) / 2.

(** Every index at which one evaluation of [noise] reads the table, in
    the order of the reads of the four corner lines ([None]: the index is
    not a number). *)
Definition noise_reads (permutation : list Z) (x y : Q) : list (option Z) :=
  let X := JS.band (Math_floor x) 255 in
  let Y := JS.band (Math_floor y) 255 in
  [ Some Y; index_aa permutation X Y;
    Some (Y + 1)%Z; index_ab permutation X Y;
    Some Y; index_ba permutation X Y;
    Some (Y + 1)%Z; index_bb permutation X Y ].

(** ** Computations of the passes *)

Record DrawContext : Type := {
  width : Q;
  height : Q;
  perlin : Q -> Q -> Q
}.

Section Passes.

(** The closure [random]: its captured state and one call. *)
Context {G : Type}.
Variable random : G -> Q * G.

(** A computation receives the state of the generator and gives its
    result, the new state of the generator and the context calls made;
    [None] when a loop did not finish within its fuel. *)
Definition Draw (A : Type) : Type := G -> option (A * G * list call).

Definition ret {A} (a : A) : Draw A := fun g => Some (a, g, []).

Definition bind {A B} (m : Draw A) (k : A -> Draw B) : Draw B :=
  fun g =>
    match m g with
    | None => None
    | Some (a, g1, t1) =>
        match k a g1 with
        | None => None
        | Some (b, g2, t2) => Some (b, g2, t1 ++ t2)
        end
    end.

Definition call_random : Draw Q :=
  fun g => let '(r, g') := random g in Some (r, g', []).

Definition emit (c : call) : Draw unit := fun g => Some (tt, g, [c]).

Definition out_of_fuel {A} : Draw A := fun _ => None.

Declare Scope draw_scope.
Delimit Scope draw_scope with draw.
Bind Scope draw_scope with Draw.
Notation "x <- m ;; k" := (bind m (fun x => k))
  (at level 20, m at level 99, k at level 200, only parsing) : draw_scope.
Notation "m ;; k" := (bind m (fun _ => k))
  (at level 100, k at level 200, only parsing, right associativity) : draw_scope.
Local Open Scope draw_scope.

(** [for (let i = 0; i < count; i += 1) body] *)
Fixpoint for_from (n : nat) (i : Z) (body : Z -> Draw unit) : Draw unit :=
  match n with
  | O => ret tt
  | S n' => body i ;; for_from n' (i + 1)%Z body
  end.

Definition for_lt (count : Z) (body : Z -> Draw unit) : Draw unit :=
  for_from (Z.to_nat count) 0%Z body.

(** [for (let x = x0; x <= limit; x += step) body], with [x] an exact
    rational.  With [limit = n * step] the last turn is the one at
    [x = limit]; in doubles the sum of [n] rounded steps can lie above
    [limit], and that turn is then not taken.  A [step] of 0 never ends,
    here and there. *)
Fixpoint for_x (fuel : nat) (x limit step : Q) (body : Q -> Draw unit)
  : Draw unit :=
  match fuel with
  | O => out_of_fuel
  | S fuel' =>
      if Qle_bool x limit
      then body x ;; for_x fuel' (x + step) limit step body
      else ret tt
  end.

(** *** createPerlin *)

(** [for (let i = 255; i > 0; i -= 1)], entered with [i] the counter. *)
Fixpoint shuffle (i : nat) (p : list Z) : Draw (list Z) :=
  match i with
  | O => ret p
  | S i' =>
      r <- call_random ;;
      let j := Math_floor (r * inject_Z (Z.of_nat i + 1)) in
      let tmp := Uint8Array.get p (Z.of_nat i) in
      let p := Uint8Array.set p (Z.of_nat i) (Uint8Array.get p j) in
      let p := Uint8Array.set p j tmp in
      shuffle i' p
  end.

(** The arrays [p] and [permutation] at the end of the three loops. *)
Definition createPerlin_tables : Draw (list Z * list Z) :=
  let permutation := Uint8Array.new 512 in
  let p := Uint8Array.new 256 in
  let p := foldl (fun p i => Uint8Array.set p i (Some i)) p (seqZ 0 256) in
  p <- shuffle 255 p ;;
  let permutation :=
    foldl (fun permutation i =>
             Uint8Array.set permutation i (Uint8Array.get p (JS.band i 255)))
          permutation (seqZ 0 512) in
  ret (p, permutation).

Definition createPerlin : Draw (Q -> Q -> Q) :=
  tables <- createPerlin_tables ;;
  ret (noise (snd tables)).

(** *** The six passes *)

Definition fillBackground (dc : DrawContext) : Draw unit :=
  let '{| width := width; height := height |} := dc in
  let sky := createLinearGradient 0 0 0 height in
  let sky := addColorStop sky 0 (Css "#05070b") in
  let sky := addColorStop sky 0.3 (Css "#0d1117") in
  let sky := addColorStop sky 0.65 (Css "#1a1a1f") in
  let sky := addColorStop sky 1 (Css "#2c1c14") in
  emit (SetFillStyle (FillGradient sky)) ;;
  emit (FillRect 0 0 width height) ;;
  let glow := createLinearGradient 0 (height * 0.55) 0 height in
  let glow := addColorStop glow 0 (Css "rgba(255,120,30,0.25)") in
  let glow := addColorStop glow 0.35 (Css "rgba(210,80,20,0.15)") in
  let glow := addColorStop glow 1 (Css "rgba(20,12,10,0.85)") in
  emit (SetFillStyle (FillGradient glow)) ;;
  emit (FillRect 0 (height * 0.55) width (height * 0.45)).

Definition drawExplosion (dc : DrawContext) : Draw unit :=
  let '{| width := width; height := height |} := dc in
  r <- call_random ;;
  let fireballCount := (3 + Math_floor (r * 2))%Z in
  for_lt fireballCount (fun i =>
    r <- call_random ;;
    let baseX := width * (0.38 + r * 0.24) in
    r <- call_random ;;
    let baseY := height * (0.62 + r * 0.06) in
    r <- call_random ;;
    let radius := width * (0.12 + r * 0.08) in
    let gradient :=
      createRadialGradient baseX baseY (radius * 0.1) baseX baseY radius in
    let gradient := addColorStop gradient 0 (Css "rgba(255,245,200,0.95)") in
    let gradient := addColorStop gradient 0.2 (Css "rgba(255,190,90,0.9)") in
    let gradient := addColorStop gradient 0.45 (Css "rgba(220,90,20,0.75)") in
    let gradient := addColorStop gradient 0.85 (Css "rgba(70,25,12,0.2)") in
    let gradient := addColorStop gradient 1 (Css "rgba(20,10,8,0)") in
    emit (SetFillStyle (FillGradient gradient)) ;;
    emit BeginPath ;;
    emit (Arc baseX baseY radius 0 (Math_PI * 2)) ;;
    emit Fill).

(** One layer of [drawSmoke]: the body of the outer loop.  [opacity] goes
    into the colour string as it is, so it is the double that the
    subtraction gives. *)
Definition drawSmoke_layer (fuel : nat) (dc : DrawContext) (layer : Z)
  : Draw unit :=
  let '{| width := width; height := height; perlin := perlin |} := dc in
  let opacity := double_value (0.25 - double_of_Z layer * 0.01)%float in
  r <- call_random ;;
  let offset := r * 1000 in
  let yBase := height * (0.55 + inject_Z layer * 0.015) in
  emit BeginPath ;;
  emit (MoveTo 0 height) ;;
  for_x fuel 0 width (width / 160) (fun x =>
    let noise :=
      perlin (x * 0.002 + offset) (inject_Z layer * 0.25 + offset * 0.01) in
    let y := yBase - noise * height * 0.22 in
    emit (LineTo x y)) ;;
  emit (LineTo width height) ;;
  emit ClosePath ;;
  emit (SetFillStyle (FillColor (Rgba 28 24 30 opacity))) ;;
  emit Fill.

Definition drawSmoke (fuel : nat) (dc : DrawContext) : Draw unit :=
  let layers := 16%Z in
  for_lt layers (drawSmoke_layer fuel dc).

(** [count] is the floor of the rounded product: the double 0.7 lies below
    7/10, and where the exact product is an integer the rounded one can
    lie just below it. *)
Definition drawEmbers (dc : DrawContext) : Draw unit :=
  let '{| width := width; height := height; perlin := perlin |} := dc in
  let count := Math_floor_double (double_of_Q width * 0.7)%float in
  for_lt count (fun i =>
    r <- call_random ;;
    let x := r * width in
    r <- call_random ;;
    let y := height * (0.4 + r * 0.45) in
    let intensity := perlin (x * 0.03) (y * 0.03) in
    if Qltb intensity 0.45 then ret tt else
    r <- call_random ;;
    let size := 0.8 + r * 1.6 in
    emit Save ;;
    emit (Translate x y) ;;
    r <- call_random ;;
    emit (Rotate ((r - 0.5) * Math_PI * 0.3)) ;;
    let gradient := createLinearGradient 0 0 0 (size * 6) in
    r <- call_random ;;
    let gradient :=
      addColorStop gradient 0 (Rgba 255 210 120 (0.85 + r * 0.1)) in
    let gradient := addColorStop gradient 0.5 (Css "rgba(255,120,30,0.4)") in
    let gradient := addColorStop gradient 1 (Css "rgba(60,20,10,0)") in
    emit (SetFillStyle (FillGradient gradient)) ;;
    r <- call_random ;;
    emit (FillRect (- size) 0 (size * 2) (size * 6 + r * 18)) ;;
    emit Restore).

(** One structure of [drawTerrain]: the body of its second loop. *)
Definition drawTerrain_structure (dc : DrawContext) (horizon : Q)
    (structures : Z) (i : Z) : Draw unit :=
  let '{| width := width; height := height |} := dc in
  r <- call_random ;;
  let x := inject_Z i / inject_Z structures * width + r * width * 0.04 in
  r <- call_random ;;
  let baseHeight := height * (0.12 + r * 0.12) in
  r <- call_random ;;
  let widthFactor := width * (0.02 + r * 0.03) in
  emit Save ;;
  r <- call_random ;;
  emit (Translate x (horizon - r * height * 0.08)) ;;
  r <- call_random ;;
  emit (Scale 1 (1 + r * 0.2)) ;;
  emit BeginPath ;;
  emit (MoveTo (- widthFactor * 0.6) 0) ;;
  r <- call_random ;;
  emit (LineTo (- widthFactor * 0.3) (- baseHeight * (0.3 + r * 0.2))) ;;
  r <- call_random ;;
  emit (LineTo (- widthFactor * 0.4) (- baseHeight * (0.7 + r * 0.2))) ;;
  emit (LineTo (widthFactor * 0.2) (- baseHeight)) ;;
  r <- call_random ;;
  emit (LineTo (widthFactor * 0.4) (- baseHeight * (0.7 + r * 0.2))) ;;
  r <- call_random ;;
  emit (LineTo (widthFactor * 0.7) (- baseHeight * (0.3 + r * 0.2))) ;;
  emit (LineTo (widthFactor * 0.9) 0) ;;
  emit ClosePath ;;
  emit (SetFillStyle (FillColor (Css "rgba(10,10,14,0.9)"))) ;;
  emit Fill ;;
  emit Restore.

(** The last five statements of [drawTerrain]: the haze band. *)
Definition drawTerrain_haze (dc : DrawContext) (horizon : Q) : Draw unit :=
  let '{| width := width; height := height |} := dc in
  emit (SetGlobalCompositeOperation Lighter) ;;
  let haze :=
    createLinearGradient 0 (horizon - height * 0.1) 0 (horizon + height * 0.2) in
  let haze := addColorStop haze 0 (Css "rgba(255,130,60,0.06)") in
  let haze := addColorStop haze 0.5 (Css "rgba(255,90,40,0.1)") in
  let haze := addColorStop haze 1 (Css "rgba(30,10,10,0)") in
  emit (SetFillStyle (FillGradient haze)) ;;
  emit (FillRect 0 (horizon - height * 0.1) width (height * 0.3)) ;;
  emit (SetGlobalCompositeOperation SourceOver).

(** The statements of [drawTerrain] before the haze band. *)
Definition drawTerrain_silhouettes (fuel : nat) (dc : DrawContext) (horizon : Q)
  : Draw unit :=
  let '{| width := width; height := height; perlin := perlin |} := dc in
  emit BeginPath ;;
  emit (MoveTo 0 height) ;;
  for_x fuel 0 width (width / 200) (fun x =>
    let noise := perlin (x * 0.003) 20 in
    let y := horizon + noise * height * 0.18 in
    emit (LineTo x y)) ;;
  emit (LineTo width height) ;;
  emit ClosePath ;;
  emit (SetFillStyle (FillColor (Css "#050406"))) ;;
  emit Fill ;;
  r <- call_random ;;
  let structures := (12 + Math_floor (r * 6))%Z in
  for_lt structures (drawTerrain_structure dc horizon structures).

Definition drawTerrain (fuel : nat) (dc : DrawContext) : Draw unit :=
  let horizon := height dc * 0.68 in
  drawTerrain_silhouettes fuel dc horizon ;;
  drawTerrain_haze dc horizon.

Definition drawAtmosphericDust (dc : DrawContext) : Draw unit :=
  let '{| width := width; height := height |} := dc in
  let density := Math_floor (width * 3.6) in
  for_lt density (fun i =>
    r <- call_random ;;
    let x := r * width in
    r <- call_random ;;
    let y := r * height in
    r <- call_random ;;
    let alpha := 0.02 + r * 0.04 in
    r <- call_random ;;
    let size := r * 2 in
    emit (SetFillStyle (FillColor (Rgba 240 200 140 alpha))) ;;
    emit (FillRect x y size size)).

(** The statements of [drawScene] once the context is there and [random]
    is bound. *)
Definition drawScene_body (fuel : nat) (width height : Q) : Draw unit :=
  perlin <- createPerlin ;;
  let drawContext :=
    {| width := width; height := height; perlin := perlin |} in
  emit (ClearRect 0 0 width height) ;;
  fillBackground drawContext ;;
  drawExplosion drawContext ;;
  drawSmoke fuel drawContext ;;
  drawEmbers drawContext ;;
  drawTerrain fuel drawContext ;;
  drawAtmosphericDust drawContext.

End Passes.

(** ** drawScene *)

(** [canvas.getContext("2d")] gives the context of the canvas or [null]. *)
Record HTMLCanvasElement : Type := {
  getContext : option context
}.

(** How a call of a function ends.  The program has no [throw]; the two
    errors are those the specification names.  An exception thrown by a
    method of the context is not among them. *)
Inductive error : Type :=
  | InvalidDimensions
  | SurfaceUnavailable.

Inductive completion : Type :=
  | Returns
  | Throws (e : error).

(** The call [drawScene(canvas, width, height, seed)]: how it ends and the
    context calls it makes, in order. *)
Definition drawScene (fuel : nat) (canvas : HTMLCanvasElement)
    (width height : Q) (seed : Z) : option (completion * list call) :=
  match getContext canvas with
  | None => Some (Returns, [])
  | Some ctx =>
      let random := mulberry32 seed in
      match drawScene_body mulberry32_call fuel width height random with
      | None => None
      | Some (_, _, calls) => Some (Returns, calls)
      end
  end.

(** The canvas after the call. *)
Definition drawScene_canvas (fuel : nat) (canvas : HTMLCanvasElement)
    (width height : Q) (seed : Z) : option HTMLCanvasElement :=
  match drawScene fuel canvas width height seed with
  | None => None
  | Some (_, calls) =>
      Some {| getContext := option_map (fun ctx => exec ctx calls) (getContext canvas) |}
  end.

(** ** Notions used to state the properties *)

(** The state of a generator after [n] calls, and the value that call
    number [n] (counting from 0) returns. *)
Fixpoint state_after {G : Type} (random : G -> Q * G) (n : nat) (g : G) : G :=
  match n with
  | O => g
  | S n' => state_after random n' (snd (random g))
  end.

Definition nth_draw {G : Type} (random : G -> Q * G) (n : nat) (g : G) : Q :=
  fst (random (state_after random n g)).

(** A value a [Uint8Array] can hold. *)
Definition is_byte (v : Z) : Prop := (0 <= v < 256)%Z.

(** The abscissae a loop [for (x = x0; ...; x += step)] visits in its
    first [n] iterations. *)
Fixpoint abscissae (n : nat) (x step : Q) : list Q :=
  match n with
  | O => []
  | S n' => x :: abscissae n' (x + step)%Q step
  end.

(** The abscissae [for_x] visits in the path loops of [drawSmoke] and
    [drawTerrain], [for (let x = 0; x <= width; x += width / n)]: with the
    exact sums of the embedding, [n + 1] points for a positive width and
    none for a negative one. *)
Definition path_abscissae (width : Q) (n : nat) : list Q :=
  if Qle_bool 0 width
  then abscissae (S n) 0 (width / inject_Z (Z.of_nat n))%Q
  else [].

(** A computation that, from every state of the generator, finishes with
    context calls satisfying [P]. *)
Definition runs {G A : Type} (m : @Draw G A) (P : list call -> Prop) : Prop :=
  forall g, exists a g' t, m g = Some (a, g', t) /\ P t.

(** [m2] finishes wherever [m1] does, with the same outcome. *)
Definition refines {G A : Type} (m1 m2 : @Draw G A) : Prop :=
  forall g r, m1 g = Some r -> m2 g = Some r.

(** Context calls that leave the composite mode and the stack of saved
    states as they found them and paint only with the composite mode they
    found. *)
Definition mode_neutral (t : list call) : Prop :=
  forall c,
    globalCompositeOperation (current (exec c t))
    = globalCompositeOperation (current c)
    /\ saved (exec c t) = saved c
    /\ exists ps,
         surface (exec c t) = surface c ++ ps
         /\ Forall (fun p => forall m, paint_mode p = Some m ->
                               m = globalCompositeOperation (current c)) ps.

(** Whether a call of [drawScene] ended by signalling the error [e]. *)
Definition signals (e : error) (r : option (completion * list call)) : Prop :=
  exists calls, r = Some (Throws e, calls).

(** Calls other than [save], [restore] and the assignment of the
    composite mode. *)
Definition simple_call (c : call) : bool :=
  match c with
  | Save | Restore | SetGlobalCompositeOperation _ => false
  | _ => true
  end.

(** One run of the statements of [drawScene] after the context check,
    from the generator state [g]: [createPerlin], then the six passes in
    order, each on the generator state the previous one left, with the
    context calls [t1] ... [t6] each pass makes. *)
Definition pipeline {G : Type} (random : G -> Q * G) (fuel : nat)
    (width height : Q) (g : G) (t1 t2 t3 t4 t5 t6 : list call) : Prop :=
  exists perlin g0 g1 g2 g3 g4 g5 g6,
    createPerlin random g = Some (perlin, g0, [])
    /\ g0 = state_after random 255 g
    /\ let drawContext :=
         {| width := width; height := height; perlin := perlin |} in
       fillBackground drawContext g0 = Some (tt, g1, t1)
       /\ drawExplosion random drawContext g1 = Some (tt, g2, t2)
       /\ drawSmoke random fuel drawContext g2 = Some (tt, g3, t3)
       /\ drawEmbers random drawContext g3 = Some (tt, g4, t4)
       /\ drawTerrain random fuel drawContext g4 = Some (tt, g5, t5)
       /\ drawAtmosphericDust random drawContext g5 = Some (tt, g6, t6).

(** The four calls of the haze band of [drawTerrain], for a canvas of the
    given size. *)
Definition haze_style (height : Q) : style :=
  let horizon := (height * 0.68)%Q in
  FillGradient
    (LinearGradient 0 (horizon - height * 0.1)%Q 0 (horizon + height * 0.2)%Q
       [ (0%Q, Css "rgba(255,130,60,0.06)");
         (0.5%Q, Css "rgba(255,90,40,0.1)");
         (1%Q, Css "rgba(30,10,10,0)") ]).

Definition haze_calls (width height : Q) : list call :=
  let horizon := (height * 0.68)%Q in
  [ SetGlobalCompositeOperation Lighter;
    SetFillStyle (haze_style height);
    FillRect 0 (horizon - height * 0.1)%Q width (height * 0.3)%Q;
    SetGlobalCompositeOperation SourceOver ].

(** The Smoke pass as the specification describes it: layer [layer] with
    phase [offset] is one closed path from [(0, height)] along the
    noise-perturbed curve to [(width, height)], filled with the layer's
    opacity. *)
Definition smoke_ordinate (dc : DrawContext) (layer : Z) (offset x : Q) : Q :=
  (height dc * (0.55 + inject_Z layer * 0.015)
   - perlin dc (x * 0.002 + offset) (inject_Z layer * 0.25 + offset * 0.01)
     * height dc * 0.22)%Q.

(** The opacity of layer [layer], [0.25 - layer * 0.01] as the program
    computes it, and the rational that double is. *)
Definition smoke_opacity_double (layer : Z) : float :=
  (0.25 - double_of_Z layer * 0.01)%float.

Definition smoke_opacity (layer : Z) : Q :=
  double_value (smoke_opacity_double layer).

(** The double nearest to the two-decimal number [0.25 - 0.01 * layer],
    for the sixteen layers. *)
Definition smoke_opacity_decimal (layer : Z) : float :=
  let table :=
    [ 0.25; 0.24; 0.23; 0.22; 0.21; 0.2; 0.19; 0.18;
      0.17; 0.16; 0.15; 0.14; 0.13; 0.12; 0.11; 0.1 ]%float in
  nth (Z.to_nat layer) table 0.1%float.

(** The calls of one layer whose curve has the abscissae [xs]. *)
Definition smoke_layer_path (dc : DrawContext) (xs : list Q) (layer : Z)
    (offset : Q) : list call :=
  [BeginPath; MoveTo 0 (height dc)]
  ++ map (fun x => LineTo x (smoke_ordinate dc layer offset x)) xs
  ++ [ LineTo (width dc) (height dc); ClosePath;
       SetFillStyle (FillColor (Rgba 28 24 30 (smoke_opacity layer))); Fill ].

Definition smoke_layer_calls (dc : DrawContext) (layer : Z) (offset : Q)
  : list call :=
  smoke_layer_path dc (path_abscissae (width dc) 160) layer offset.

(** The calls of the sixteen layers, layer [k] with the phase that draw
    number [k] gives. *)
Definition smoke_calls {G : Type} (random : G -> Q * G) (dc : DrawContext)
    (xs : list Q) (g : G) : list call :=
  concat (map (fun k => smoke_layer_path dc xs (Z.of_nat k)
                          (nth_draw random k g * 1000)%Q)
              (seq 0 16)).

(** Calls that end with [restore] after mode-neutral calls, and calls
    that end with the haze band after mode-neutral calls. *)
Definition restores_after_neutral (t : list call) : Prop :=
  exists t0, t = t0 ++ [Restore] /\ mode_neutral t0.

Definition ends_with_haze (width height : Q) (t : list call) : Prop :=
  exists t0, t = t0 ++ haze_calls width height /\ mode_neutral t0.

(** A computation that, from every state of the generator, finishes
    after some number [d] of calls of [random], with context calls [t]
    such that [R d t]. *)
Definition steps {G A : Type} (random : G -> Q * G) (m : @Draw G A)
    (R : nat -> list call -> Prop) : Prop :=
  forall g, exists a d t, m g = Some (a, state_after random d g, t) /\ R d t.

(** The number of candidates of [drawEmbers], [Math.floor(width * 0.7)]
    as the program computes it. *)
Definition embers_count (width : Q) : Z :=
  Math_floor_double (double_of_Q width * 0.7)%float.

(** The number of calls of a kind. *)
Definition count_calls (f : call -> bool) (t : list call) : nat :=
  length (List.filter f t).

Definition is_arc (c : call) : bool :=
  match c with Arc _ _ _ _ _ => true | _ => false end.

Definition is_save (c : call) : bool :=
  match c with Save => true | _ => false end.

Definition is_restore (c : call) : bool :=
  match c with Restore => true | _ => false end.

Definition is_fillRect (c : call) : bool :=
  match c with FillRect _ _ _ _ => true | _ => false end.

Definition is_fill (c : call) : bool :=
  match c with Fill => true | _ => false end.

(** The bands the specification gives for a fireball: a full circle whose
    centre lies in [0.38, 0.62] of the width and [0.62, 0.68] of the height
    and whose radius lies in [0.12, 0.20] of the width. *)
Definition fireball_ok (dc : DrawContext) (c : call) : Prop :=
  match c with
  | Arc x y r a0 a1 =>
      (width dc * 0.38 <= x <= width dc * 0.62
       /\ height dc * 0.62 <= y <= height dc * 0.68
       /\ width dc * 0.12 <= r <= width dc * 0.2
       /\ a0 = 0 /\ a1 = Math_PI * 2)%Q
  | _ => True
  end.


(** Calls that leave the drawing state, the stack of saved states and the
    current path as they found them. *)
Definition state_preserving (t : list call) : Prop :=
  forall c,
    current (exec c t) = current c
    /\ saved (exec c t) = saved c
    /\ path (exec c t) = path c.

(** Calls that leave the current transformation and the stack of saved
    states as they found them. *)
Definition frame_neutral (t : list call) : Prop :=
  forall c,
    ctm (current (exec c t)) = ctm (current c)
    /\ saved (exec c t) = saved c.

(** Calls other than [save], [restore], the assignment of the composite
    mode and the transformations. *)
Definition plain_call (c : call) : bool :=
  match c with
  | Save | Restore | SetGlobalCompositeOperation _
  | Translate _ _ | Rotate _ | Scale _ _ => false
  | _ => true
  end.

(** A path point that lies inside the canvas. *)
Definition in_canvas (dc : DrawContext) (c : call) : Prop :=
  match c with
  | MoveTo x y | LineTo x y =>
      (0 <= x <= width dc /\ 0 <= y <= height dc)%Q
  | _ => True
  end.

(** * Part II: properties *)

Local Open Scope Z_scope.

(** ** The 32-bit conversions *)

Lemma ToUint32_range z : 0 <= JS.ToUint32 z < 2 ^ 32.
Proof. unfold JS.ToUint32. apply Z.mod_pos_bound. lia. Qed.

Lemma ToInt32_range z : - 2 ^ 31 <= JS.ToInt32 z < 2 ^ 31.
Proof.
  unfold JS.ToInt32.
  pose proof (Z.mod_pos_bound (z + 2 ^ 31) (2 ^ 32)). lia.
Qed.

Lemma ToInt32_mod z : JS.ToInt32 z mod 2 ^ 32 = z mod 2 ^ 32.
Proof.
  unfold JS.ToInt32.
  rewrite Zminus_mod, Zmod_mod, <- Zminus_mod.
  f_equal. lia.
Qed.

Lemma ToInt32_small z : - 2 ^ 31 <= z < 2 ^ 31 -> JS.ToInt32 z = z.
Proof. intros H. unfold JS.ToInt32. rewrite Z.mod_small; lia. Qed.

Lemma ToUint32_small z : 0 <= z < 2 ^ 32 -> JS.ToUint32 z = z.
Proof. intros H. unfold JS.ToUint32. now apply Z.mod_small. Qed.

Lemma ToUint32_idem z : JS.ToUint32 (JS.ToUint32 z) = JS.ToUint32 z.
Proof. unfold JS.ToUint32. apply Zmod_mod. Qed.

Lemma mod32_testbit z i :
  Z.testbit (z mod 2 ^ 32) i = (i <? 32) && Z.testbit z i.
Proof.
  destruct (Z.ltb_spec i 32) as [Hlt | Hge]; simpl.
  - destruct (Z.neg_nonneg_cases i) as [Hn | Hn].
    + rewrite !Z.testbit_neg_r; auto.
    + apply Z.mod_pow2_bits_low. lia.
  - apply Z.mod_pow2_bits_high. lia.
Qed.

Lemma lxor_mod32 a b :
  Z.lxor a b mod 2 ^ 32 = Z.lxor (a mod 2 ^ 32) (b mod 2 ^ 32).
Proof.
  apply Z.bits_inj'. intros i _.
  rewrite Z.lxor_spec, !mod32_testbit, Z.lxor_spec.
  destruct (i <? 32); reflexivity.
Qed.

Lemma lor_mod32 a b :
  Z.lor a b mod 2 ^ 32 = Z.lor (a mod 2 ^ 32) (b mod 2 ^ 32).
Proof.
  apply Z.bits_inj'. intros i _.
  rewrite Z.lor_spec, !mod32_testbit, Z.lor_spec.
  destruct (i <? 32); reflexivity.
Qed.

Lemma ToUint32_bxor a b :
  JS.ToUint32 (JS.bxor a b) = Z.lxor (JS.ToUint32 a) (JS.ToUint32 b).
Proof.
  unfold JS.bxor, JS.ToUint32. now rewrite lxor_mod32, !ToInt32_mod.
Qed.

Lemma ToUint32_bor a b :
  JS.ToUint32 (JS.bor a b) = Z.lor (JS.ToUint32 a) (JS.ToUint32 b).
Proof.
  unfold JS.bor, JS.ToUint32. now rewrite lor_mod32, !ToInt32_mod.
Qed.

Lemma ToUint32_imul a b :
  JS.ToUint32 (JS.imul a b) = (JS.ToUint32 a * JS.ToUint32 b) mod 2 ^ 32.
Proof.
  unfold JS.imul, JS.ToUint32.
  rewrite ToInt32_mod, (Zmult_mod (JS.ToInt32 a)), !ToInt32_mod.
  reflexivity.
Qed.

Lemma shiftr_range z n :
  0 <= z < 2 ^ 32 -> 0 <= n -> 0 <= Z.shiftr z n < 2 ^ 32.
Proof.
  intros Hz Hn. rewrite Z.shiftr_div_pow2 by assumption.
  assert (0 < 2 ^ n) by (apply Z.pow_pos_nonneg; lia).
  split.
  - apply Z.div_pos; lia.
  - apply Z.div_lt_upper_bound; nia.
Qed.

Lemma ushr_small a n :
  0 <= n < 32 -> JS.ushr a n = Z.shiftr (JS.ToUint32 a) n.
Proof.
  intros Hn. unfold JS.ushr. f_equal.
  change 31 with (Z.ones 5). rewrite Z.land_ones by lia.
  apply Z.mod_small. simpl. lia.
Qed.

Lemma ToUint32_ushr a n :
  0 <= n < 32 -> JS.ToUint32 (JS.ushr a n) = Z.shiftr (JS.ToUint32 a) n.
Proof.
  intros Hn. rewrite ushr_small by assumption.
  apply ToUint32_small, shiftr_range; [apply ToUint32_range | lia].
Qed.

Lemma ToUint32_add a b :
  JS.ToUint32 (a + b) = (JS.ToUint32 a + JS.ToUint32 b) mod 2 ^ 32.
Proof. unfold JS.ToUint32. apply Zplus_mod. Qed.

Lemma lxor_u32_small a b :
  Z.lxor (JS.ToUint32 a) (JS.ToUint32 b) mod 2 ^ 32
  = Z.lxor (JS.ToUint32 a) (JS.ToUint32 b).
Proof. rewrite lxor_mod32. unfold JS.ToUint32. now rewrite !Zmod_mod. Qed.

Lemma lxor_shiftr_small a n :
  0 <= n ->
  Z.lxor (JS.ToUint32 a) (Z.shiftr (JS.ToUint32 a) n) mod 2 ^ 32
  = Z.lxor (JS.ToUint32 a) (Z.shiftr (JS.ToUint32 a) n).
Proof.
  intros Hn.
  rewrite <- (ToUint32_small (Z.shiftr (JS.ToUint32 a) n)) at 1 2
    by (apply shiftr_range; [apply ToUint32_range | lia]).
  apply lxor_u32_small.
Qed.

(** ** mulberry32 *)

Lemma mulberry32_seed seed : mulberry32 seed = JS.ToUint32 seed.
Proof. unfold mulberry32. rewrite ushr_small by lia. apply Z.shiftr_0_r. Qed.

Lemma mulberry32_call_state a :
  JS.ToUint32 (snd (mulberry32_call a)) = Mulberry32Spec.advance (JS.ToUint32 a).
Proof.
  unfold mulberry32_call, Mulberry32Spec.advance; simpl snd.
  rewrite ToUint32_bor, ToUint32_add, ToUint32_bor.
  change (JS.ToUint32 0) with 0. rewrite !Z.lor_0_r.
  reflexivity.
Qed.

Lemma mulberry32_call_mix a :
  exists n, fst (mulberry32_call a) = (inject_Z n / 4294967296)%Q
    /\ n = Mulberry32Spec.mix (JS.ToUint32 (snd (mulberry32_call a))).
Proof.
  eexists. split; [reflexivity|].
  unfold mulberry32_call; simpl snd.
  set (a2 := JS.bor (JS.bor a 0 + 1831565813) 0).
  unfold Mulberry32Spec.mix.
  set (t1 := JS.imul (JS.bxor a2 (JS.ushr a2 15)) (JS.bor 1 a2)).
  set (t2 := JS.bxor t1 (t1 + JS.imul (JS.bxor t1 (JS.ushr t1 7)) (JS.bor 61 t1))).
  assert (H1 : JS.ToUint32 t1
               = (Z.lxor (JS.ToUint32 a2) (Z.shiftr (JS.ToUint32 a2) 15)
                  * Z.lor (JS.ToUint32 a2) 1) mod 2 ^ 32).
  { unfold t1. rewrite ToUint32_imul, ToUint32_bxor, ToUint32_bor.
    rewrite ToUint32_ushr by lia.
    change (JS.ToUint32 1) with 1. now rewrite (Z.lor_comm 1). }
  assert (H2 : JS.ToUint32 t2
               = Z.lxor (JS.ToUint32 t1)
                   ((JS.ToUint32 t1
                     + Z.lxor (JS.ToUint32 t1) (Z.shiftr (JS.ToUint32 t1) 7)
                       * Z.lor (JS.ToUint32 t1) 61) mod 2 ^ 32) mod 2 ^ 32).
  { unfold t2. rewrite ToUint32_bxor, ToUint32_add, ToUint32_imul.
    rewrite ToUint32_bxor, ToUint32_bor, ToUint32_ushr by lia.
    change (JS.ToUint32 61) with 61. rewrite (Z.lor_comm 61).
    rewrite Zplus_mod_idemp_r.
    rewrite lxor_mod32. unfold JS.ToUint32. now rewrite !Zmod_mod. }
  rewrite <- H1, <- H2.
  rewrite ushr_small by lia. rewrite Z.shiftr_0_r.
  rewrite ToUint32_bxor, ToUint32_ushr by lia.
  now rewrite lxor_shiftr_small by lia.
Qed.

Lemma mix_range a : 0 <= Mulberry32Spec.mix a < 2 ^ 32.
Proof. unfold Mulberry32Spec.mix. apply Z.mod_pos_bound. lia. Qed.

Lemma unit_fraction_range n :
  0 <= n < 2 ^ 32 -> (0 <= inject_Z n / 4294967296 < 1)%Q.
Proof.
  intros [H0 H1]. unfold Qdiv, Qmult, Qinv, Qle, Qlt, inject_Z; simpl.
  change (2 ^ 32) with 4294967296 in H1. lia.
Qed.

Lemma mulberry32_call_range a : (0 <= fst (mulberry32_call a) < 1)%Q.
Proof.
  destruct (mulberry32_call_mix a) as (n & -> & ->).
  apply unit_fraction_range, mix_range.
Qed.

Lemma mulberry32_state_S n a :
  mulberry32_state (S n) a = snd (mulberry32_call (mulberry32_state n a)).
Proof.
  revert a. induction n as [|n IH]; intros a; [reflexivity|].
  change (mulberry32_state (S (S n)) a)
    with (mulberry32_state (S n) (snd (mulberry32_call a))).
  rewrite IH. reflexivity.
Qed.

Lemma mulberry32_state_closed n seed :
  JS.ToUint32 (mulberry32_state n (mulberry32 seed))
  = (seed + Z.of_nat n * 0x6D2B79F5) mod 2 ^ 32.
Proof.
  induction n as [|n IH].
  - simpl mulberry32_state. rewrite (mulberry32_seed seed).
    unfold JS.ToUint32. rewrite Zmod_mod. f_equal. lia.
  - rewrite mulberry32_state_S, mulberry32_call_state, IH.
    unfold Mulberry32Spec.advance. rewrite Zplus_mod_idemp_l. f_equal. lia.
Qed.

(** C2.  One call of the generator advances the 32-bit state by the
    constant 0x6D2B79F5 modulo 2^32, returns the mixed state divided by
    2^32 exactly as the specification computes it, and the returned value
    lies in [0, 1); after [n] calls the state is the seed advanced [n]
    times. *)
Theorem mulberry32_call_refines_spec (a : Z) :
  let a' := Mulberry32Spec.advance (JS.ToUint32 a) in
  JS.ToUint32 (snd (mulberry32_call a)) = a'
  /\ fst (mulberry32_call a) = Mulberry32Spec.output a'
  /\ (0 <= fst (mulberry32_call a) < 1)%Q
  /\ (forall n seed,
        JS.ToUint32 (mulberry32_state n (mulberry32 seed))
        = Nat.iter n Mulberry32Spec.advance (JS.ToUint32 seed)).
Proof.
  intros a'. split; [apply mulberry32_call_state|].
  split.
  { destruct (mulberry32_call_mix a) as (n & -> & ->).
    rewrite mulberry32_call_state. reflexivity. }
  split; [apply mulberry32_call_range|].
  intros n seed. induction n as [|n IH].
  - simpl. rewrite (mulberry32_seed seed). apply ToUint32_idem.
  - rewrite mulberry32_state_S, mulberry32_call_state, IH. reflexivity.
Qed.

(** ** Typed arrays *)

Lemma band_255 z : JS.band z 255 = z mod 256.
Proof.
  unfold JS.band. rewrite (ToInt32_small 255) by lia.
  change 255 with (Z.ones 8). rewrite Z.land_ones by lia.
  change (2 ^ 8) with 256.
  assert (Hd : (256 | 2 ^ 32)) by (exists (2 ^ 24); reflexivity).
  rewrite <- (Z.mod_mod_divide (JS.ToInt32 z) (2 ^ 32) 256 Hd).
  rewrite ToInt32_mod. now apply Z.mod_mod_divide.
Qed.

Lemma band_255_range z : 0 <= JS.band z 255 < 256.
Proof. rewrite band_255. apply Z.mod_pos_bound. lia. Qed.

Lemma get_Some a i v :
  Uint8Array.get a i = Some v <-> 0 <= i /\ a !! Z.to_nat i = Some v.
Proof.
  unfold Uint8Array.get. destruct (Z.leb_spec 0 i); split.
  - auto.
  - now intros [_ ?].
  - discriminate.
  - intros [? _]. lia.
Qed.

Lemma get_in_range a i :
  0 <= i < Z.of_nat (length a) -> is_Some (Uint8Array.get a i).
Proof.
  intros [H0 H1]. unfold Uint8Array.get.
  destruct (Z.leb_spec 0 i); [|lia].
  apply lookup_lt_is_Some. lia.
Qed.

Lemma get_byte a i v :
  Forall is_byte a -> Uint8Array.get a i = Some v -> is_byte v.
Proof.
  intros Ha Hget. apply get_Some in Hget as [_ Hl].
  eapply Forall_lookup_1; eauto.
Qed.

Lemma length_set a i v : length (Uint8Array.set a i v) = length a.
Proof.
  unfold Uint8Array.set. destruct (0 <=? i); [apply length_insert | reflexivity].
Qed.

Lemma set_bytes a i v : Forall is_byte a -> Forall is_byte (Uint8Array.set a i v).
Proof.
  intros Ha. unfold Uint8Array.set. destruct (0 <=? i); [|assumption].
  apply Forall_insert; [assumption|].
  unfold is_byte. apply Z.mod_pos_bound. lia.
Qed.

(** Writing a byte at an index inside the array is a list update. *)
Lemma set_byte_at a (i : nat) v :
  is_byte v -> Uint8Array.set a (Z.of_nat i) (Some v) = <[i := v]> a.
Proof.
  intros Hv. unfold Uint8Array.set.
  destruct (Z.leb_spec 0 (Z.of_nat i)); [|lia].
  rewrite Nat2Z.id. simpl. rewrite Z.mod_small by exact Hv. reflexivity.
Qed.

Lemma insert_head_Permutation (l : list Z) j b x :
  l !! j = Some b -> b :: <[j := x]> l ≡ₚ x :: l.
Proof.
  revert j. induction l as [|y l IH]; intros [|j] Hj; simplify_eq/=.
  - apply Permutation_swap.
  - rewrite Permutation_swap, (IH j Hj). apply Permutation_swap.
Qed.

(** Exchanging two entries of a list gives a permutation of it. *)
Lemma swap_Permutation (l : list Z) i j a b :
  l !! i = Some a -> l !! j = Some b -> <[j := a]> (<[i := b]> l) ≡ₚ l.
Proof.
  revert i j. induction l as [|x l IH]; intros [|i] [|j] Hi Hj; simplify_eq/=.
  - reflexivity.
  - now apply insert_head_Permutation.
  - now apply insert_head_Permutation.
  - f_equiv. now apply IH.
Qed.

(** A loop [for (i = 0; i < n; i += 1) a[i] = f(i)] over an array of
    length at least [n]. *)
Lemma fold_set_lookup (f : Z -> option Z) (n : nat) (a : list Z) :
  (n <= length a)%nat ->
  let a' := foldl (fun a i => Uint8Array.set a i (f i)) a (seqZ 0 (Z.of_nat n)) in
  length a' = length a
  /\ (forall k, (k < n)%nat ->
        a' !! k = Some (default 0 (f (Z.of_nat k)) mod 256))
  /\ (forall k, (n <= k)%nat -> a' !! k = a !! k).
Proof.
  induction n as [|n IH]; intros Hn.
  - simpl. split; [reflexivity|]. split; [intros; lia | reflexivity].
  - rewrite seqZ_S, foldl_app. simpl. rewrite Z.add_0_l.
    destruct IH as (Hlen & Hlt & Hge); [lia|].
    set (a1 := foldl _ a (seqZ 0 (Z.of_nat n))) in *.
    unfold Uint8Array.set. destruct (Z.leb_spec 0 (Z.of_nat n)); [|lia].
    rewrite Nat2Z.id. split; [now rewrite length_insert|]. split.
    + intros k Hk. destruct (decide (k = n)) as [->|Hne].
      * rewrite list_lookup_insert_eq by lia. reflexivity.
      * rewrite list_lookup_insert_ne by lia. apply Hlt. lia.
    + intros k Hk. rewrite list_lookup_insert_ne by lia. apply Hge. lia.
Qed.

(** ** createPerlin: the tables *)

Lemma floor_scale (r : Q) (n : Z) :
  (0 <= r < 1)%Q -> 0 < n -> 0 <= Math_floor (r * inject_Z n) < n.
Proof.
  intros [Hr0 Hr1] Hn. unfold Math_floor.
  assert (Hq : (inject_Z 0 < inject_Z n)%Q) by (rewrite <- Zlt_Qlt; exact Hn).
  change (inject_Z 0) with 0%Q in Hq.
  split.
  - change 0 with (Qfloor 0). apply Qfloor_resp_le. nra.
  - rewrite (Zlt_Qlt (Qfloor (r * inject_Z n)) n).
    apply Qle_lt_trans with (r * inject_Z n)%Q; [apply Qfloor_le | nra].
Qed.

Lemma initial_table :
  foldl (fun p i => Uint8Array.set p i (Some i)) (Uint8Array.new 256) (seqZ 0 256)
  = seqZ 0 256.
Proof. vm_compute. reflexivity. Qed.

Lemma seqZ_bytes : Forall is_byte (seqZ 0 256).
Proof. apply Forall_seqZ. intros v Hv. unfold is_byte. lia. Qed.

Section CreatePerlin.

Context {G : Type}.
Variable random : G -> Q * G.

Lemma state_after_S n g :
  state_after random (S n) g = snd (random (state_after random n g)).
Proof.
  revert g. induction n as [|n IH]; intros g; [reflexivity|].
  change (state_after random (S (S n)) g)
    with (state_after random (S n) (snd (random g))).
  now rewrite IH.
Qed.

Lemma state_after_add n m g :
  state_after random (n + m) g = state_after random m (state_after random n g).
Proof. revert g. induction n as [|n IH]; intros g; simpl; auto. Qed.

(** The shuffle loop always finishes, calls [random] once per iteration,
    makes no context call, and leaves an array of bytes of the same
    length. *)
Lemma shuffle_total i p g :
  exists p',
    shuffle random i p g = Some (p', state_after random i g, [])
    /\ length p' = length p
    /\ (Forall is_byte p -> Forall is_byte p').
Proof.
  revert p g. induction i as [|i IH]; intros p g.
  - exists p. repeat split; auto.
  - cbn [shuffle]. unfold bind, call_random.
    destruct (random g) as [r g1] eqn:Hr.
    set (j := Math_floor _).
    set (p2 := Uint8Array.set (Uint8Array.set p _ _) j _).
    destruct (IH p2 g1) as (p' & Hs & Hlen & Hb).
    exists p'. rewrite Hs. cbn [state_after]. rewrite Hr. split; [reflexivity|].
    split.
    + rewrite Hlen. unfold p2. now rewrite !length_set.
    + intros Hp. apply Hb. unfold p2. now apply set_bytes, set_bytes.
Qed.

(** With draws in [0, 1) each iteration exchanges two entries. *)
Lemma shuffle_Permutation i p g p' g' t :
  (i < length p)%nat ->
  Forall is_byte p ->
  (forall n, (n < i)%nat -> (0 <= nth_draw random n g < 1)%Q) ->
  shuffle random i p g = Some (p', g', t) ->
  p' ≡ₚ p.
Proof.
  revert p g p' g' t. induction i as [|i IH]; intros p g p' g' t Hi Hp Hdraw Hs.
  - cbn in Hs. injection Hs as <- _ _. reflexivity.
  - cbn [shuffle] in Hs. unfold bind, call_random in Hs.
    pose proof (Hdraw O ltac:(lia)) as Hr0. unfold nth_draw in Hr0.
    cbn [state_after] in Hr0.
    destruct (random g) as [r g1] eqn:Hr. cbn [fst] in Hr0.
    set (j := Math_floor _) in Hs.
    assert (Hj : 0 <= j < Z.of_nat (S i) + 1) by (apply floor_scale; [exact Hr0 | lia]).
    destruct (lookup_lt_is_Some_2 p (S i) Hi) as [a Ha].
    destruct (lookup_lt_is_Some_2 p (Z.to_nat j) ltac:(lia)) as [b Hb].
    assert (Hga : Uint8Array.get p (Z.of_nat (S i)) = Some a).
    { apply get_Some. rewrite Nat2Z.id. split; [lia | exact Ha]. }
    assert (Hgb : Uint8Array.get p j = Some b).
    { apply get_Some. split; [lia | exact Hb]. }
    rewrite Hga, Hgb in Hs.
    rewrite set_byte_at in Hs by (eapply Forall_lookup_1; eauto).
    replace j with (Z.of_nat (Z.to_nat j)) in Hs at 1 by lia.
    rewrite set_byte_at in Hs by (eapply Forall_lookup_1; eauto).
    set (p2 := <[Z.to_nat j := a]> (<[S i := b]> p)) in Hs.
    assert (Hperm : p2 ≡ₚ p) by (now apply swap_Permutation).
    destruct (shuffle random i p2 g1) as [[[p3 g3] t3]|] eqn:Hs2; [|discriminate].
    injection Hs as <- _ _.
    rewrite <- Hperm. apply (IH p2 g1 p3 g3 t3).
    + unfold p2. rewrite !length_insert. lia.
    + rewrite Hperm. exact Hp.
    + intros n Hn. specialize (Hdraw (S n) ltac:(lia)).
      unfold nth_draw in *. cbn [state_after] in Hdraw. now rewrite Hr in Hdraw.
    + exact Hs2.
Qed.

(** [createPerlin] always finishes after 255 calls of [random], makes no
    context call, and its lookup table is the base table twice over. *)
Lemma createPerlin_tables_total g :
  exists p permutation,
    createPerlin_tables random g
    = Some ((p, permutation), state_after random 255 g, [])
    /\ shuffle random 255 (seqZ 0 256) g = Some (p, state_after random 255 g, [])
    /\ length p = 256%nat
    /\ Forall is_byte p
    /\ length permutation = 512%nat
    /\ (forall k, (k < 512)%nat ->
          permutation !! k = p !! (k mod 256)%nat).
Proof.
  unfold createPerlin_tables. rewrite initial_table.
  destruct (shuffle_total 255 (seqZ 0 256) g) as (p & Hs & Hlen & Hb).
  exists p. eexists. unfold bind, ret. rewrite Hs. cbn [app].
  split; [reflexivity|]. split; [reflexivity|].
  rewrite length_seqZ in Hlen. change (Z.to_nat 256) with 256%nat in Hlen.
  specialize (Hb seqZ_bytes).
  split; [exact Hlen|]. split; [exact Hb|].
  pose proof (fold_set_lookup (fun i => Uint8Array.get p (JS.band i 255)) 512
                (Uint8Array.new 512)) as Hf.
  change (Z.of_nat 512) with 512 in Hf.
  destruct Hf as (Hl & Hlt & _).
  { unfold Uint8Array.new. rewrite length_replicate. lia. }
  split.
  { rewrite Hl. unfold Uint8Array.new. now rewrite length_replicate. }
  intros k Hk. rewrite (Hlt k Hk). rewrite band_255.
  assert (Hm : Z.of_nat k mod 256 = Z.of_nat (k mod 256)).
  { rewrite Nat2Z.inj_mod. reflexivity. }
  rewrite Hm.
  assert (Hkm : (k mod 256 < 256)%nat) by (apply Nat.mod_upper_bound; lia).
  destruct (lookup_lt_is_Some_2 p (k mod 256)%nat ltac:(lia)) as [v Hv].
  assert (Hg : Uint8Array.get p (Z.of_nat (k mod 256)) = Some v).
  { apply get_Some. rewrite Nat2Z.id. split; [lia | exact Hv]. }
  rewrite Hg, Hv. simpl. f_equal. apply Z.mod_small.
  eapply Forall_lookup_1 in Hb; eauto.
Qed.

End CreatePerlin.

(** C3.  When the draws of the supplied generator lie in [0, 1), the base
    table left by the Fisher-Yates loop of [createPerlin] is a permutation
    of 0..255 in which every value appears exactly once, and entry [i] of
    the 512-entry lookup table is entry [i mod 256] of the base table. *)
Theorem createPerlin_base_table_bijection
    {G : Type} (random : G -> Q * G) (g : G) :
  (forall n, (n < 255)%nat -> (0 <= nth_draw random n g < 1)%Q) ->
  exists p permutation,
    createPerlin_tables random g
    = Some ((p, permutation), state_after random 255 g, [])
    /\ p ≡ₚ seqZ 0 256
    /\ (forall v, 0 <= v < 256 ->
          exists k, p !! k = Some v /\ forall k', p !! k' = Some v -> k' = k)
    /\ (forall v, v ∈ p -> 0 <= v < 256)
    /\ length permutation = 512%nat
    /\ (forall i, 0 <= i < 512 ->
          Uint8Array.get permutation i = Uint8Array.get p (i mod 256)).
Proof.
  intros Hdraw.
  destruct (createPerlin_tables_total random g)
    as (p & permutation & Ht & Hs & Hlen & Hb & Hl & Hk).
  exists p, permutation. split; [exact Ht|].
  assert (Hperm : p ≡ₚ seqZ 0 256).
  { eapply shuffle_Permutation; [| apply seqZ_bytes | exact Hdraw | exact Hs].
    rewrite length_seqZ. change (Z.to_nat 256) with 256%nat. lia. }
  split; [exact Hperm|].
  assert (Hnd : NoDup p) by (rewrite Hperm; apply NoDup_seqZ).
  split.
  { intros v Hv.
    assert (Hin : v ∈ p) by (rewrite Hperm; apply elem_of_seqZ; lia).
    apply list_elem_of_lookup in Hin as [k Hk'].
    exists k. split; [exact Hk'|].
    intros k' Hk''. eapply NoDup_lookup; eauto. }
  split.
  { intros v Hin. rewrite Hperm in Hin. apply elem_of_seqZ in Hin. lia. }
  split; [exact Hl|].
  intros i Hi. unfold Uint8Array.get.
  destruct (Z.leb_spec 0 i); [|lia].
  pose proof (Z.mod_pos_bound i 256 ltac:(lia)).
  destruct (Z.leb_spec 0 (i mod 256)); [|lia].
  rewrite (Hk (Z.to_nat i)) by lia. f_equal.
  rewrite (Z2Nat.inj_mod i 256) by lia. reflexivity.
Qed.

Lemma createPerlin_base_table_bijection_witness :
  exists p permutation,
    createPerlin_tables mulberry32_call (mulberry32 42)
    = Some ((p, permutation), state_after mulberry32_call 255 (mulberry32 42), [])
    /\ p ≡ₚ seqZ 0 256
    /\ (forall v, 0 <= v < 256 ->
          exists k, p !! k = Some v /\ forall k', p !! k' = Some v -> k' = k)
    /\ (forall v, v ∈ p -> 0 <= v < 256)
    /\ length permutation = 512%nat
    /\ (forall i, 0 <= i < 512 ->
          Uint8Array.get permutation i = Uint8Array.get p (i mod 256)).
Proof.
  apply (createPerlin_base_table_bijection mulberry32_call (mulberry32 42)).
  intros n _. apply mulberry32_call_range.
Defined.

(** C9.  Whatever the generator, the lookup table built by [createPerlin]
    has 512 entries, and every index at which an evaluation of the noise
    function reads it, at any point [(x, y)], is a number between 0 and
    511: no read falls outside the table. *)
Theorem noise_reads_within_table
    {G : Type} (random : G -> Q * G) (g : G) :
  exists tables g',
    createPerlin_tables random g = Some (tables, g', [])
    /\ length (snd tables) = 512%nat
    /\ forall x y e,
         e ∈ noise_reads (snd tables) x y ->
         exists i, e = Some i /\ 0 <= i <= 511
                   /\ is_Some (Uint8Array.get (snd tables) i).
Proof.
  destruct (createPerlin_tables_total random g)
    as (p & permutation & Ht & _ & Hlen & Hb & Hl & Hk).
  exists (p, permutation), (state_after random 255 g).
  split; [exact Ht|]. cbn [snd]. split; [exact Hl|].
  intros x y e He.
  assert (Hbytes : forall i v, 0 <= i < 512 ->
            Uint8Array.get permutation i = Some v -> is_byte v).
  { intros i v Hi Hg. apply get_Some in Hg as [_ Hg].
    rewrite (Hk (Z.to_nat i)) in Hg by lia.
    eapply Forall_lookup_1; eauto. }
  assert (Hread : forall i, 0 <= i < 512 ->
            exists v, Uint8Array.get permutation i = Some v /\ is_byte v).
  { intros i Hi.
    destruct (get_in_range permutation i) as [v Hv]; [rewrite Hl; lia|].
    exists v. split; [exact Hv | eapply Hbytes; eauto]. }
  pose proof (band_255_range (Math_floor x)) as HX.
  pose proof (band_255_range (Math_floor y)) as HY.
  set (X := JS.band (Math_floor x) 255) in *.
  set (Y := JS.band (Math_floor y) 255) in *.
  destruct (Hread Y ltac:(lia)) as (vy & Hvy & Hby).
  destruct (Hread (Y + 1) ltac:(lia)) as (vy1 & Hvy1 & Hby1).
  unfold is_byte in *.
  assert (Hgoal : forall i, 0 <= i <= 511 ->
            exists i', Some i = Some i' /\ 0 <= i' <= 511
                       /\ is_Some (Uint8Array.get permutation i')).
  { intros i Hi. exists i. split; [reflexivity|]. split; [lia|].
    apply get_in_range. rewrite Hl. lia. }
  unfold noise_reads in He. fold X Y in He.
  unfold index_aa, index_ab, index_ba, index_bb in He.
  rewrite Hvy, Hvy1 in He. cbn [Uint8Array.plus] in He.
  repeat (apply elem_of_cons in He as [-> | He]; [apply Hgoal; lia|]).
  now apply elem_of_nil in He.
Qed.

(** ** The noise function: range *)

Local Open Scope Q_scope.

Lemma square_nonneg (x : Q) : 0 <= x * x.
Proof. nra. Qed.

Lemma add_nonneg (a b : Q) : 0 <= a -> 0 <= b -> 0 <= a + b.
Proof. intros. lra. Qed.

Lemma square_pos (x c : Q) : ~ x == c -> 0 < (x - c) * (x - c).
Proof.
  intros Hne.
  destruct (Q_dec x c) as [[Hl | Hg] | He]; [| | contradiction].
  - assert (E : (x - c) * (x - c) == (c - x) * (c - x)) by ring.
    rewrite E. apply Qmult_lt_0_compat; lra.
  - apply Qmult_lt_0_compat; lra.
Qed.

Lemma fade_range t : 0 <= t <= 1 -> 0 <= fade t <= 1.
Proof.
  intros [H0 H1].
  assert (Hc : 1 - fade t == (1 - t) * (1 - t) * (1 - t) * (6 * t * t + 3 * t + 1))
    by (unfold fade; ring).
  assert (H3 : 0 <= t * t * t) by (repeat apply Qmult_le_0_compat; lra).
  assert (H4 : 0 <= t * (t * 6 - 15) + 10) by nra.
  assert (H5 : 0 <= (1 - t) * (1 - t) * (1 - t))
    by (repeat apply Qmult_le_0_compat; lra).
  assert (H6 : 0 <= 6 * t * t + 3 * t + 1) by nra.
  split.
  - unfold fade. now apply Qmult_le_0_compat.
  - assert (0 <= 1 - fade t) by (rewrite Hc; now apply Qmult_le_0_compat). lra.
Qed.

(** The weight the fade curve gives to the far corner never lets the
    interpolated distance exceed [2 t (1 - t)]. *)
Lemma fade_mid_bound t :
  0 <= t <= 1 -> t + fade t * (1 - 2 * t) <= 2 * t * (1 - t).
Proof.
  intros [H0 H1].
  assert (Hid : 2 * t * (1 - t) - (t + fade t * (1 - 2 * t))
                == t * (1 - t) * ((2 * t - 1) * (2 * t - 1)) * (1 + 3 * t * (1 - t)))
    by (unfold fade; ring).
  assert (H2 : 0 <= t * (1 - t)) by (apply Qmult_le_0_compat; lra).
  assert (H3 : 0 <= (2 * t - 1) * (2 * t - 1)) by apply square_nonneg.
  assert (H4 : 0 <= 1 + 3 * t * (1 - t)) by nra.
  assert (H5 : 0 <= t * (1 - t) * ((2 * t - 1) * (2 * t - 1)))
    by (now apply Qmult_le_0_compat).
  assert (0 <= 2 * t * (1 - t) - (t + fade t * (1 - 2 * t)))
    by (rewrite Hid; now apply Qmult_le_0_compat).
  lra.
Qed.

Lemma lerp_le t p q P Q' :
  0 <= t <= 1 -> p <= P -> q <= Q' -> lerp t p q <= lerp t P Q'.
Proof.
  intros [H0 H1] Hp Hq.
  assert (Hid : lerp t P Q' - lerp t p q == (1 - t) * (P - p) + t * (Q' - q))
    by (unfold lerp; ring).
  assert (H2 : 0 <= (1 - t) * (P - p)) by (apply Qmult_le_0_compat; lra).
  assert (H3 : 0 <= t * (Q' - q)) by (apply Qmult_le_0_compat; lra).
  assert (0 <= lerp t P Q' - lerp t p q)
    by (rewrite Hid; now apply add_nonneg).
  lra.
Qed.

Lemma band_3_cases z :
  (JS.band z 3 = 0 \/ JS.band z 3 = 1 \/ JS.band z 3 = 2 \/ JS.band z 3 = 3)%Z.
Proof.
  unfold JS.band. rewrite (ToInt32_small 3) by lia.
  pose proof (Z.land_ones (JS.ToInt32 z) 2 ltac:(lia)) as H.
  change (Z.ones 2) with 3%Z in H. change (2 ^ 2)%Z with 4%Z in H.
  rewrite H.
  pose proof (Z.mod_pos_bound (JS.ToInt32 z) 4 ltac:(lia)). lia.
Qed.

(** The four gradients [grad] selects from; the direction [(1, -1)] is
    not among them. *)
Lemma grad_cases hash x y :
  grad hash x y = x + y \/ grad hash x y = - x + y
  \/ grad hash x y = y + - x \/ grad hash x y = - y + - x.
Proof.
  unfold grad.
  destruct (band_3_cases (default 0%Z hash)) as [-> | [-> | [-> | ->]]];
    cbn; auto.
Qed.

Lemma grad_abs_bound hash x y B :
  - B <= x + y <= B -> - B <= x - y <= B -> - B <= grad hash x y <= B.
Proof.
  intros H1 H2.
  destruct (grad_cases hash x y) as [-> | [-> | [-> | ->]]]; lra.
Qed.

Lemma grad_upper_bound hash x y B :
  x + y <= B -> - x + y <= B -> - x - y <= B -> grad hash x y <= B.
Proof.
  intros H1 H2 H3.
  destruct (grad_cases hash x y) as [-> | [-> | [-> | ->]]]; lra.
Qed.

Lemma fractional_part_range x : 0 <= x - inject_Z (Math_floor x) < 1.
Proof.
  unfold Math_floor.
  pose proof (Qfloor_le x) as H1. pose proof (Qlt_floor x) as H2.
  rewrite inject_Z_plus in H2. change (inject_Z 1) with 1 in H2. lra.
Qed.

(** The interpolation of four corner values within the gradient bounds. *)
Lemma interpolation_range a b u v g00 g10 g01 g11 :
  0 <= a < 1 -> 0 <= b < 1 ->
  u == fade a -> v == fade b ->
  - (a + b) <= g00 <= a + b ->
  - (1 - a + b) <= g10 <= 1 - a + b ->
  - (a + 1 - b) <= g01 <= a + 1 - b ->
  - (2 - a - b) <= g11 <= 2 - a - b ->
  (a == 1 # 2 -> b == 1 # 2 -> g01 <= 0) ->
  - 1 <= lerp v (lerp u g00 g10) (lerp u g01 g11) < 1.
Proof.
  intros Ha Hb Hu Hv H00 H10 H01 H11 Hmid.
  assert (Hur : 0 <= u <= 1) by (rewrite Hu; apply fade_range; lra).
  assert (Hvr : 0 <= v <= 1) by (rewrite Hv; apply fade_range; lra).
  assert (HA : a + u * (1 - 2 * a) <= 2 * a * (1 - a))
    by (rewrite Hu; apply fade_mid_bound; lra).
  assert (HB : b + v * (1 - 2 * b) <= 2 * b * (1 - b))
    by (rewrite Hv; apply fade_mid_bound; lra).
  set (R := lerp v (lerp u g00 g10) (lerp u g01 g11)).
  assert (Hup : R <= lerp v (lerp u (a + b) (1 - a + b))
                            (lerp u (a + 1 - b) (2 - a - b))).
  { unfold R. apply lerp_le; [exact Hvr | apply lerp_le; lra | apply lerp_le; lra]. }
  assert (Hlo : lerp v (lerp u (- (a + b)) (- (1 - a + b)))
                       (lerp u (- (a + 1 - b)) (- (2 - a - b))) <= R).
  { unfold R. apply lerp_le; [exact Hvr | apply lerp_le; lra | apply lerp_le; lra]. }
  assert (Hsum : lerp v (lerp u (a + b) (1 - a + b))
                        (lerp u (a + 1 - b) (2 - a - b))
                 == (a + u * (1 - 2 * a)) + (b + v * (1 - 2 * b)))
    by (unfold lerp; ring).
  assert (Hneg : lerp v (lerp u (- (a + b)) (- (1 - a + b)))
                        (lerp u (- (a + 1 - b)) (- (2 - a - b)))
                 == - ((a + u * (1 - 2 * a)) + (b + v * (1 - 2 * b))))
    by (unfold lerp; ring).
  rewrite Hsum in Hup. rewrite Hneg in Hlo.
  assert (Hsq : 2 * a * (1 - a) + 2 * b * (1 - b)
                == 1 - 2 * ((a - (1 # 2)) * (a - (1 # 2)))
                     - 2 * ((b - (1 # 2)) * (b - (1 # 2)))) by ring.
  assert (Hsa : 0 <= (a - (1 # 2)) * (a - (1 # 2))) by apply square_nonneg.
  assert (Hsb : 0 <= (b - (1 # 2)) * (b - (1 # 2))) by apply square_nonneg.
  split; [lra|].
  destruct (Qeq_dec a (1 # 2)) as [Ea | Na].
  - destruct (Qeq_dec b (1 # 2)) as [Eb | Nb].
    + specialize (Hmid Ea Eb).
      assert (Eu : u == 1 # 2) by (rewrite Hu; unfold fade; rewrite Ea; reflexivity).
      assert (Ev : v == 1 # 2) by (rewrite Hv; unfold fade; rewrite Eb; reflexivity).
      assert (Hup' : R <= lerp v (lerp u (a + b) (1 - a + b)) (lerp u 0 (2 - a - b))).
      { unfold R. apply lerp_le; [exact Hvr | apply lerp_le; lra | apply lerp_le; lra]. }
      assert (Hval : lerp v (lerp u (a + b) (1 - a + b)) (lerp u 0 (2 - a - b)) == 3 # 4).
      { unfold lerp. rewrite Ea, Eb, Eu, Ev. reflexivity. }
      rewrite Hval in Hup'. lra.
    + pose proof (square_pos b (1 # 2) Nb). lra.
  - pose proof (square_pos a (1 # 2) Na). lra.
Qed.

(** C4.  For every table and every point [(x, y)] the noise function
    returns a value in the half-open interval [0, 1). *)
Theorem noise_range (permutation : list Z) (x y : Q) :
  0 <= noise permutation x y < 1.
Proof.
  unfold noise.
  pose proof (fractional_part_range x) as Hx.
  pose proof (fractional_part_range y) as Hy.
  set (xf := x - inject_Z (Math_floor x)) in *.
  set (yf := y - inject_Z (Math_floor y)) in *.
  set (X := JS.band (Math_floor x) 255).
  set (Y := JS.band (Math_floor y) 255).
  set (aa := Uint8Array.get_at permutation (index_aa permutation X Y)).
  set (ab := Uint8Array.get_at permutation (index_ab permutation X Y)).
  set (ba := Uint8Array.get_at permutation (index_ba permutation X Y)).
  set (bb := Uint8Array.get_at permutation (index_bb permutation X Y)).
  assert (HR : - 1 <= lerp (fade yf)
                        (lerp (fade xf) (grad aa xf yf) (grad ba (xf - 1) yf))
                        (lerp (fade xf) (grad ab xf (yf - 1))
                                        (grad bb (xf - 1) (yf - 1))) < 1).
  { apply (interpolation_range xf yf); try reflexivity; try assumption.
    - apply grad_abs_bound; lra.
    - apply grad_abs_bound; lra.
    - apply grad_abs_bound; lra.
    - apply grad_abs_bound; lra.
    - intros Ea Eb. apply grad_upper_bound; lra. }
  set (R := lerp _ _ _) in *.
  split.
  - apply Qle_shift_div_l; lra.
  - apply Qlt_shift_div_r; lra.
Qed.

(** ** Computations: finishing, and the calls made *)

Section DrawFacts.

Context {G : Type}.
Variable random : G -> Q * G.

Lemma runs_weaken {A} (m : @Draw G A) (P P' : list call -> Prop) :
  runs m P -> (forall t, P t -> P' t) -> runs m P'.
Proof.
  intros Hm HP g. destruct (Hm g) as (a & g' & t & E & Ht). eauto 6.
Qed.

Lemma runs_ret {A} (a : A) (P : list call -> Prop) :
  P [] -> runs (@ret G A a) P.
Proof. intros HP g. exists a, g, []. auto. Qed.

Lemma runs_emit c (P : list call -> Prop) :
  P [c] -> runs (@emit G c) P.
Proof. intros HP g. exists tt, g, [c]. auto. Qed.

Lemma runs_random (P : list call -> Prop) :
  P [] -> runs (call_random random) P.
Proof.
  intros HP g. unfold call_random. destruct (random g) as [r g'].
  exists r, g', []. auto.
Qed.

Lemma runs_bind {A B} (m : @Draw G A) (k : A -> @Draw G B)
    (P1 P2 P : list call -> Prop) :
  runs m P1 -> (forall a, runs (k a) P2) ->
  (forall t1 t2, P1 t1 -> P2 t2 -> P (t1 ++ t2)) ->
  runs (bind m k) P.
Proof.
  intros Hm Hk HP g. unfold bind.
  destruct (Hm g) as (a & g1 & t1 & E1 & H1). rewrite E1.
  destruct (Hk a g1) as (b & g2 & t2 & E2 & H2). rewrite E2.
  exists b, g2, (t1 ++ t2). auto.
Qed.

Lemma runs_for_from (body : Z -> @Draw G unit) (P : list call -> Prop) n i :
  (forall i, runs (body i) P) ->
  P [] -> (forall t1 t2, P t1 -> P t2 -> P (t1 ++ t2)) ->
  runs (for_from n i body) P.
Proof.
  intros Hb Hnil Happ. revert i. induction n as [|n IH]; intros i; cbn.
  - now apply runs_ret.
  - eapply runs_bind; [apply Hb | intros _; apply IH | exact Happ].
Qed.

Lemma runs_for_lt (body : Z -> @Draw G unit) (P : list call -> Prop) count :
  (forall i, runs (body i) P) ->
  P [] -> (forall t1 t2, P t1 -> P t2 -> P (t1 ++ t2)) ->
  runs (for_lt count body) P.
Proof. intros. unfold for_lt. now apply runs_for_from. Qed.

Lemma refines_refl {A} (m : @Draw G A) : refines m m.
Proof. intros g r E. exact E. Qed.

Lemma refines_bind {A B} (m1 m2 : @Draw G A) (k1 k2 : A -> @Draw G B) :
  refines m1 m2 -> (forall a, refines (k1 a) (k2 a)) ->
  refines (bind m1 k1) (bind m2 k2).
Proof.
  intros Hm Hk g r. unfold bind.
  destruct (m1 g) as [[[a g1] t1]|] eqn:E1; [|discriminate].
  rewrite (Hm g _ E1).
  destruct (k1 a g1) as [[[b g2] t2]|] eqn:E2; [|discriminate].
  rewrite (Hk a g1 _ E2). auto.
Qed.

Lemma refines_for_from (b1 b2 : Z -> @Draw G unit) n i :
  (forall i, refines (b1 i) (b2 i)) ->
  refines (for_from n i b1) (for_from n i b2).
Proof.
  intros Hb. revert i. induction n as [|n IH]; intros i; cbn.
  - apply refines_refl.
  - apply refines_bind; [apply Hb | intros _; apply IH].
Qed.

(** More fuel does not change the outcome of a loop that finished. *)
Lemma refines_for_x fuel1 fuel2 x limit step (body : Q -> @Draw G unit) :
  (fuel1 <= fuel2)%nat ->
  refines (for_x fuel1 x limit step body) (for_x fuel2 x limit step body).
Proof.
  revert fuel2 x. induction fuel1 as [|f1 IH]; intros fuel2 x Hle.
  - intros g r E. discriminate E.
  - destruct fuel2 as [|f2]; [lia|]. cbn.
    destruct (Qle_bool x limit); [|apply refines_refl].
    apply refines_bind; [apply refines_refl | intros _; apply IH; lia].
Qed.

Lemma inject_nat_S k :
  inject_Z (Z.of_nat (S k)) == inject_Z (Z.of_nat k) + 1.
Proof. rewrite Nat2Z.inj_succ. unfold Z.succ. now rewrite inject_Z_plus. Qed.

(** A path loop whose body makes one call: it runs exactly as long as
    the abscissa is not beyond the limit. *)
Lemma for_x_run (f : Q -> call) limit step m :
  forall x fuel (g : G),
    (forall k, (k < m)%nat -> x + inject_Z (Z.of_nat k) * step <= limit) ->
    ~ x + inject_Z (Z.of_nat m) * step <= limit ->
    (m < fuel)%nat ->
    for_x fuel x limit step (fun x => emit (f x)) g
    = Some (tt, g, map f (abscissae m x step)).
Proof.
  induction m as [|m IH]; intros x fuel g Hin Hout Hf;
    (destruct fuel as [|fuel]; [lia|]); cbn [for_x abscissae map].
  - destruct (Qle_bool x limit) eqn:E; [|reflexivity].
    apply Qle_bool_iff in E. exfalso. apply Hout.
    change (inject_Z (Z.of_nat 0)) with 0. lra.
  - assert (E : Qle_bool x limit = true).
    { apply Qle_bool_iff. specialize (Hin O ltac:(lia)).
      change (inject_Z (Z.of_nat 0)) with 0 in Hin. lra. }
    rewrite E. unfold bind.
    change (emit (f x) g) with (Some (tt, g, [f x])). cbn beta iota.
    rewrite (IH (x + step) fuel g); [reflexivity | | | lia].
    + intros k Hk. specialize (Hin (S k) ltac:(lia)).
      rewrite inject_nat_S in Hin.
      assert (Hid : x + step + inject_Z (Z.of_nat k) * step
                    == x + (inject_Z (Z.of_nat k) + 1) * step) by ring.
      rewrite Hid. exact Hin.
    + intros Hc. apply Hout. rewrite inject_nat_S.
      assert (Hid : x + (inject_Z (Z.of_nat m) + 1) * step
                    == x + step + inject_Z (Z.of_nat m) * step) by ring.
      rewrite Hid. exact Hc.
Qed.

(** The same loop with a zero step and a start not beyond the limit never
    finishes. *)
Lemma for_x_zero_step (body : Q -> @Draw G unit) x limit step fuel (g : G) :
  step == 0 -> x <= limit ->
  (forall x, exists g' t, body x g = Some (tt, g', t) /\ g' = g) ->
  for_x fuel x limit step body g = None.
Proof.
  intros Hs. revert x. induction fuel as [|fuel IH]; intros x Hx Hb; [reflexivity|].
  cbn. assert (E : Qle_bool x limit = true) by (now apply Qle_bool_iff).
  rewrite E. unfold bind.
  destruct (Hb x) as (g' & t & -> & ->).
  rewrite IH; [reflexivity | lra | exact Hb].
Qed.

End DrawFacts.

(** ** The context: composite mode *)

Lemma exec_app c t1 t2 : exec c (t1 ++ t2) = exec (exec c t1) t2.
Proof. unfold exec. apply foldl_app. Qed.

Lemma mode_neutral_nil : mode_neutral [].
Proof.
  intros c. cbn. repeat split. exists []. split; [now rewrite app_nil_r | constructor].
Qed.

Lemma mode_neutral_app t1 t2 :
  mode_neutral t1 -> mode_neutral t2 -> mode_neutral (t1 ++ t2).
Proof.
  intros H1 H2 c. rewrite exec_app.
  destruct (H1 c) as (Hm1 & Hs1 & ps1 & Hp1 & Hf1).
  destruct (H2 (exec c t1)) as (Hm2 & Hs2 & ps2 & Hp2 & Hf2).
  split; [congruence|]. split; [congruence|].
  exists (ps1 ++ ps2). split.
  - rewrite Hp2, Hp1. now rewrite app_assoc.
  - apply Forall_app. split; [exact Hf1|].
    rewrite Hm1 in Hf2. exact Hf2.
Qed.

Lemma mode_neutral_simple c : simple_call c = true -> mode_neutral [c].
Proof.
  intros Hc k. destruct c; try discriminate Hc; cbn;
    (split; [reflexivity|]); (split; [reflexivity|]);
    first [ (exists []; split; [now rewrite app_nil_r | constructor])
          | (eexists [_]; split; [reflexivity|];
             constructor; [cbn; congruence | constructor]) ].
Qed.

Lemma mode_neutral_simple_calls t :
  forallb simple_call t = true -> mode_neutral t.
Proof.
  induction t as [|c t IH]; cbn; intros H.
  - apply mode_neutral_nil.
  - apply andb_prop in H as [Hc Ht].
    change (c :: t) with ([c] ++ t).
    apply mode_neutral_app; [now apply mode_neutral_simple | now apply IH].
Qed.

(** Calls bracketed by [save] and [restore]. *)
Lemma mode_neutral_save_restore t :
  mode_neutral t -> mode_neutral (Save :: t ++ [Restore]).
Proof.
  intros Ht c. change (Save :: t ++ [Restore]) with ([Save] ++ t ++ [Restore]).
  rewrite !exec_app.
  set (c1 := exec c [Save]).
  destruct (Ht c1) as (Hm & Hs & ps & Hp & Hf).
  cbn [exec foldl exec_call]. rewrite Hs. cbn.
  split; [reflexivity|]. split; [reflexivity|].
  exists ps. split; [exact Hp | exact Hf].
Qed.

(** The haze band: one additive fill, and the mode is source-over after
    it, whatever it was before. *)
Lemma exec_haze_calls c width height :
  exec c (haze_calls width height)
  = {| current :=
         {| fillStyle := haze_style height;
            globalCompositeOperation := SourceOver;
            ctm := ctm (current c) |};
       saved := saved c;
       path := path c;
       surface :=
         surface c
         ++ [Painted Lighter (haze_style height) (ctm (current c))
               (Rect 0 (height * 0.68 - height * 0.1) width (height * 0.3))] |}.
Proof. reflexivity. Qed.

Section PassFacts.

Context {G : Type}.
Variable random : G -> Q * G.

Lemma path_loop_run (f : Q -> call) (w : Q) (n : nat) fuel (g : G) :
  ~ w == 0 -> (0 < n)%nat -> (S n < fuel)%nat ->
  for_x fuel 0 w (w / inject_Z (Z.of_nat n)) (fun x => emit (f x)) g
  = Some (tt, g, map f (path_abscissae w n)).
Proof.
  intros Hw Hn Hf. unfold path_abscissae.
  set (N := inject_Z (Z.of_nat n)).
  assert (HN : 0 < N).
  { unfold N. change 0 with (inject_Z 0). rewrite <- Zlt_Qlt. lia. }
  set (s := w / N).
  assert (Hs : s * N == w) by (unfold s; field; lra).
  destruct (Qle_bool 0 w) eqn:E.
  - apply Qle_bool_iff in E.
    assert (Hpos : 0 < w) by (destruct (Q_dec 0 w) as [[?|?]|?]; [assumption | lra | exfalso; apply Hw; now symmetry]).
    assert (Hspos : 0 < s) by (unfold s; apply Qlt_shift_div_l; lra).
    apply for_x_run; [| | lia].
    + intros k Hk.
      assert (Hk' : inject_Z (Z.of_nat k) <= N)
        by (unfold N; rewrite <- Zle_Qle; lia).
      assert (inject_Z (Z.of_nat k) * s <= N * s)
        by (apply Qmult_le_compat_r; lra).
      assert (N * s == w) by (rewrite <- Hs; ring).
      lra.
    + rewrite inject_nat_S. fold N.
      assert (Hid : 0 + (N + 1) * s == w + s) by (rewrite <- Hs; ring).
      rewrite Hid. lra.
  - assert (Hneg : ~ 0 <= w).
    { intros Hc. apply Qle_bool_iff in Hc. congruence. }
    apply (for_x_run f w s 0); [intros k Hk; lia | | lia].
    change (inject_Z (Z.of_nat 0)) with 0. intros Hc. apply Hneg. lra.
Qed.

End PassFacts.

(** ** The passes *)

Section PassRuns.

Context {G : Type}.
Variable random : G -> Q * G.

Lemma bind_run {A B} (m : @Draw G A) (k : A -> @Draw G B) g a g1 t1 b g2 t2 :
  m g = Some (a, g1, t1) -> k a g1 = Some (b, g2, t2) ->
  bind m k g = Some (b, g2, t1 ++ t2).
Proof. intros E1 E2. unfold bind. now rewrite E1, E2. Qed.

Lemma call_random_run g :
  call_random random g = Some (fst (random g), snd (random g), []).
Proof. unfold call_random. now destruct (random g). Qed.

Lemma emit_run c (g : G) : emit c g = Some (tt, g, [c]).
Proof. reflexivity. Qed.

Lemma ret_run {A} (a : A) (g : G) : ret a g = Some (a, g, []).
Proof. reflexivity. Qed.

(** A counted loop whose body calls [random] once. *)
Lemma for_from_one_draw (body : Z -> @Draw G unit) (c : Z -> Q -> list call) :
  (forall i g, body i g = Some (tt, snd (random g), c i (fst (random g)))) ->
  forall n i g,
    for_from n i body g
    = Some (tt, state_after random n g,
            concat (map (fun k => c (i + Z.of_nat k)%Z (nth_draw random k g))
                        (seq 0 n))).
Proof.
  intros Hb. induction n as [|n IH]; intros i g; [reflexivity|].
  cbn [for_from]. erewrite bind_run; [| apply Hb | apply IH].
  cbn [state_after seq map concat]. f_equal. f_equal.
  unfold nth_draw at 1. cbn [state_after]. rewrite Z.add_0_r. f_equal.
  rewrite <- seq_shift, map_map. f_equal.
  apply map_ext. intros k. unfold nth_draw. cbn [state_after].
  f_equal. lia.
Qed.

Lemma runs_path_loop (f : Q -> call) (w : Q) (n : nat) fuel
    (P : list call -> Prop) :
  ~ w == 0 -> (0 < n)%nat -> (S n < fuel)%nat ->
  P (map f (path_abscissae w n)) ->
  runs (@for_x G fuel 0 w (w / inject_Z (Z.of_nat n)) (fun x => emit (f x))) P.
Proof.
  intros Hw Hn Hf HP g. exists tt, g, (map f (path_abscissae w n)).
  split; [now apply path_loop_run | exact HP].
Qed.

Lemma forallb_map_simple (f : Q -> call) xs :
  (forall x, simple_call (f x) = true) -> forallb simple_call (map f xs) = true.
Proof. intros Hf. induction xs as [|x xs IH]; cbn; [reflexivity|]. now rewrite Hf. Qed.

Ltac neutral_step :=
  first
    [ apply runs_ret; apply mode_neutral_nil
    | apply runs_emit; apply mode_neutral_simple; reflexivity
    | apply runs_random; apply mode_neutral_nil
    | eapply runs_bind with (P1 := mode_neutral) (P2 := mode_neutral);
      [ | intros ? | apply mode_neutral_app ]
    | apply runs_for_lt; [intros ? | apply mode_neutral_nil | apply mode_neutral_app] ].

Ltac neutral := repeat neutral_step.

Lemma fillBackground_neutral dc : runs (@fillBackground G dc) mode_neutral.
Proof.
  destruct dc as [w h p]. unfold fillBackground. cbv beta iota zeta. neutral.
Qed.

Lemma drawExplosion_neutral dc : runs (drawExplosion random dc) mode_neutral.
Proof.
  destruct dc as [w h p]. unfold drawExplosion. cbv beta iota zeta. neutral.
Qed.

Lemma drawAtmosphericDust_neutral dc :
  runs (drawAtmosphericDust random dc) mode_neutral.
Proof.
  destruct dc as [w h p]. unfold drawAtmosphericDust. cbv beta iota zeta. neutral.
Qed.

(** One layer of smoke: one call of [random], and the calls of the
    layer. *)
Lemma drawSmoke_layer_run fuel dc layer g :
  ~ width dc == 0 -> (161 < fuel)%nat ->
  drawSmoke_layer random fuel dc layer g
  = Some (tt, snd (random g),
          smoke_layer_calls dc layer (fst (random g) * 1000)).
Proof.
  intros Hw Hf. destruct dc as [w h p]. cbn [width] in Hw.
  unfold drawSmoke_layer. cbv beta iota zeta.
  erewrite bind_run; [| apply call_random_run |].
  2:{ cbv beta.
      erewrite bind_run; [| apply emit_run |]. 2:{
      erewrite bind_run; [| apply emit_run |]. 2:{
      erewrite bind_run;
        [| change (w / 160) with (w / inject_Z (Z.of_nat 160));
           apply (path_loop_run
                    (fun x => LineTo x
                       (h * (0.55 + inject_Z layer * 0.015)
                        - p (x * 0.002 + fst (random g) * 1000)
                            (inject_Z layer * 0.25 + fst (random g) * 1000 * 0.01)
                          * h * 0.22))); [exact Hw | lia | lia] |]. 2:{
      erewrite bind_run; [| apply emit_run |]. 2:{
      erewrite bind_run; [| apply emit_run |]. 2:{
      erewrite bind_run; [| apply emit_run | apply emit_run].
      reflexivity. }
      reflexivity. }
      reflexivity. }
      reflexivity. }
      reflexivity. }
      reflexivity. }
  reflexivity.
Qed.

Lemma smoke_layer_calls_neutral dc layer offset :
  mode_neutral (smoke_layer_calls dc layer offset).
Proof.
  apply mode_neutral_simple_calls. unfold smoke_layer_calls, smoke_layer_path.
  cbn [app forallb simple_call andb].
  rewrite forallb_app. rewrite forallb_map_simple by reflexivity. reflexivity.
Qed.

Lemma drawSmoke_neutral fuel dc :
  ~ width dc == 0 -> (161 < fuel)%nat ->
  runs (drawSmoke random fuel dc) mode_neutral.
Proof.
  intros Hw Hf. unfold drawSmoke. cbv zeta.
  apply runs_for_lt; [| apply mode_neutral_nil | apply mode_neutral_app].
  intros layer g. eexists _, _, _.
  split; [now apply drawSmoke_layer_run | apply smoke_layer_calls_neutral].
Qed.

End PassRuns.

Section BracketedPasses.

Context {G : Type}.
Variable random : G -> Q * G.

Lemma restores_after_neutral_app t1 t2 :
  mode_neutral t1 -> restores_after_neutral t2 ->
  restores_after_neutral (t1 ++ t2).
Proof.
  intros H1 (t0 & -> & H0). exists (t1 ++ t0).
  split; [now rewrite app_assoc | now apply mode_neutral_app].
Qed.

Lemma restores_after_neutral_end : restores_after_neutral [Restore].
Proof. exists []. split; [reflexivity | apply mode_neutral_nil]. Qed.

Lemma save_then_restore t1 t2 :
  t1 = [Save] -> restores_after_neutral t2 -> mode_neutral (t1 ++ t2).
Proof.
  intros -> (t0 & -> & H0). now apply mode_neutral_save_restore.
Qed.

Ltac neutral :=
  cbv beta;
  lazymatch goal with
  | |- runs (ret _) mode_neutral => apply runs_ret; apply mode_neutral_nil
  | |- runs (bind (emit Save) _) mode_neutral =>
      eapply runs_bind with (P1 := fun t => t = [Save])
                            (P2 := restores_after_neutral);
      [ apply runs_emit; reflexivity
      | intros ?; bracket
      | apply save_then_restore ]
  | |- runs (bind _ _) mode_neutral =>
      eapply runs_bind with (P1 := mode_neutral) (P2 := mode_neutral);
      [ neutral | intros ?; neutral | apply mode_neutral_app ]
  | |- runs (emit _) mode_neutral =>
      apply runs_emit; apply mode_neutral_simple; reflexivity
  | |- runs (call_random _) mode_neutral =>
      apply runs_random; apply mode_neutral_nil
  | |- runs (for_lt _ _) mode_neutral =>
      apply runs_for_lt;
      [ intros ?; neutral | apply mode_neutral_nil | apply mode_neutral_app ]
  | |- runs (if ?b then _ else _) mode_neutral => destruct b; neutral
  | |- _ => idtac
  end
with bracket :=
  cbv beta;
  lazymatch goal with
  | |- runs (emit Restore) restores_after_neutral =>
      apply runs_emit; apply restores_after_neutral_end
  | |- runs (bind _ _) restores_after_neutral =>
      eapply runs_bind with (P1 := mode_neutral)
                            (P2 := restores_after_neutral);
      [ neutral | intros ?; bracket | apply restores_after_neutral_app ]
  | |- _ => idtac
  end.

Lemma drawEmbers_neutral dc : runs (drawEmbers random dc) mode_neutral.
Proof.
  destruct dc as [w h p]. unfold drawEmbers. cbv beta iota zeta. neutral.
Qed.

Lemma drawTerrain_structure_neutral dc horizon structures i :
  runs (drawTerrain_structure random dc horizon structures i) mode_neutral.
Proof.
  destruct dc as [w h p]. unfold drawTerrain_structure. cbv beta iota zeta.
  neutral.
Qed.

Lemma drawTerrain_silhouettes_neutral fuel dc horizon :
  ~ width dc == 0 -> (201 < fuel)%nat ->
  runs (drawTerrain_silhouettes random fuel dc horizon) mode_neutral.
Proof.
  intros Hw Hf. destruct dc as [w h p]. cbn [width] in Hw.
  unfold drawTerrain_silhouettes. cbv beta iota zeta. neutral.
  - change (w / 200) with (w / inject_Z (Z.of_nat 200)).
    apply (runs_path_loop
             (fun x => LineTo x (horizon + p (x * 0.003) 20 * h * 0.18)));
      [exact Hw | lia | lia |].
    apply mode_neutral_simple_calls. now apply forallb_map_simple.
  - apply (drawTerrain_structure_neutral {| width := w; height := h; perlin := p |}).
Qed.

Lemma drawTerrain_haze_run dc (g : G) :
  drawTerrain_haze dc (height dc * 0.68) g
  = Some (tt, g, haze_calls (width dc) (height dc)).
Proof. destruct dc as [w h p]. reflexivity. Qed.

(** The Terrain pass ends with the haze band; before it, it is
    mode-neutral. *)
Lemma drawTerrain_ends_with_haze fuel dc :
  ~ width dc == 0 -> (201 < fuel)%nat ->
  runs (drawTerrain random fuel dc) (ends_with_haze (width dc) (height dc)).
Proof.
  intros Hw Hf. unfold drawTerrain. cbv zeta.
  eapply runs_bind with (P1 := mode_neutral)
                        (P2 := fun t => t = haze_calls (width dc) (height dc)).
  - now apply drawTerrain_silhouettes_neutral.
  - intros _ g. eexists _, _, _. split; [apply drawTerrain_haze_run | reflexivity].
  - intros t1 t2 H1 ->. exists t1. auto.
Qed.

End BracketedPasses.

(** ** The scene *)

Section Scene.

Context {G : Type}.
Variable random : G -> Q * G.

Lemma createPerlin_run g :
  exists perlin,
    createPerlin random g = Some (perlin, state_after random 255 g, []).
Proof.
  destruct (createPerlin_tables_total random g) as (p & permutation & Ht & _).
  exists (noise permutation). unfold createPerlin, bind. rewrite Ht. reflexivity.
Qed.

(** With a non-zero width and fuel for the longest path loop, the
    statements of [drawScene] finish, and the calls are those of
    [clearRect] followed by those of the six passes in order. *)
Lemma drawScene_body_run fuel w h g :
  ~ w == 0 -> (201 < fuel)%nat ->
  exists t1 t2 t3 t4 t5 t6 g',
    pipeline random fuel w h g t1 t2 t3 t4 t5 t6
    /\ drawScene_body random fuel w h g
       = Some (tt, g', ClearRect 0 0 w h :: t1 ++ t2 ++ t3 ++ t4 ++ t5 ++ t6)
    /\ mode_neutral t1 /\ mode_neutral t2 /\ mode_neutral t3
    /\ mode_neutral t4 /\ ends_with_haze w h t5 /\ mode_neutral t6.
Proof.
  intros Hw Hf.
  destruct (createPerlin_run g) as (perlin & Hp).
  set (dc := {| width := w; height := h; perlin := perlin |}).
  set (g0 := state_after random 255 g) in *.
  destruct (fillBackground_neutral dc g0) as ([] & g1 & t1 & E1 & N1).
  destruct (drawExplosion_neutral random dc g1) as ([] & g2 & t2 & E2 & N2).
  destruct (drawSmoke_neutral random fuel dc Hw ltac:(lia) g2)
    as ([] & g3 & t3 & E3 & N3).
  destruct (drawEmbers_neutral random dc g3) as ([] & g4 & t4 & E4 & N4).
  destruct (drawTerrain_ends_with_haze random fuel dc Hw Hf g4)
    as ([] & g5 & t5 & E5 & N5).
  destruct (drawAtmosphericDust_neutral random dc g5) as ([] & g6 & t6 & E6 & N6).
  exists t1, t2, t3, t4, t5, t6, g6.
  split.
  { exists perlin, g0, g1, g2, g3, g4, g5, g6. cbv zeta. fold dc. auto 10. }
  split; [|auto 10].
  unfold drawScene_body.
  erewrite bind_run; [| exact Hp |]. 2:{
  cbv beta zeta. fold dc.
  erewrite bind_run; [| apply emit_run |]. 2:{
  erewrite bind_run; [| exact E1 |]. 2:{
  erewrite bind_run; [| exact E2 |]. 2:{
  erewrite bind_run; [| exact E3 |]. 2:{
  erewrite bind_run; [| exact E4 |]. 2:{
  erewrite bind_run; [| exact E5 | exact E6]. reflexivity. }
  reflexivity. } reflexivity. } reflexivity. } reflexivity. } reflexivity. }
  reflexivity.
Qed.

(** More fuel does not change the outcome of [drawScene]'s statements. *)
Lemma drawScene_body_fuel fuel1 fuel2 w h :
  (fuel1 <= fuel2)%nat ->
  refines (drawScene_body random fuel1 w h) (drawScene_body random fuel2 w h).
Proof.
  intros Hle. unfold drawScene_body.
  apply refines_bind; [apply refines_refl | intros perlin]. cbv zeta.
  do 3 (apply refines_bind; [apply refines_refl | intros _]).
  apply refines_bind.
  { unfold drawSmoke, for_lt. cbv zeta. apply refines_for_from. intros layer.
    unfold drawSmoke_layer. cbv beta iota zeta.
    do 3 (apply refines_bind; [apply refines_refl | intros ?]).
    apply refines_bind; [now apply refines_for_x | intros _; apply refines_refl]. }
  intros _.
  apply refines_bind; [apply refines_refl | intros _].
  apply refines_bind; [| intros _; apply refines_refl].
  unfold drawTerrain. cbv zeta.
  apply refines_bind; [| intros _; apply refines_refl].
  unfold drawTerrain_silhouettes. cbv beta iota zeta.
  do 2 (apply refines_bind; [apply refines_refl | intros _]).
  apply refines_bind; [now apply refines_for_x | intros _; apply refines_refl].
Qed.

End Scene.

Lemma drawScene_never_throws fuel canvas w h seed e :
  ~ signals e (drawScene fuel canvas w h seed).
Proof.
  intros [calls E]. unfold drawScene in E.
  destruct (getContext canvas); [|discriminate E].
  destruct (drawScene_body _ _ _ _ _) as [[[? ?] ?]|]; discriminate E.
Qed.

(** [drawScene] on a canvas that has a context. *)
Lemma drawScene_run fuel canvas ctx w h seed :
  getContext canvas = Some ctx -> ~ w == 0 -> (201 < fuel)%nat ->
  exists t1 t2 t3 t4 t5 t6,
    pipeline mulberry32_call fuel w h (mulberry32 seed) t1 t2 t3 t4 t5 t6
    /\ drawScene fuel canvas w h seed
       = Some (Returns, ClearRect 0 0 w h :: t1 ++ t2 ++ t3 ++ t4 ++ t5 ++ t6)
    /\ mode_neutral t1 /\ mode_neutral t2 /\ mode_neutral t3
    /\ mode_neutral t4 /\ ends_with_haze w h t5 /\ mode_neutral t6.
Proof.
  intros Hc Hw Hf.
  destruct (drawScene_body_run mulberry32_call fuel w h (mulberry32 seed) Hw Hf)
    as (t1 & t2 & t3 & t4 & t5 & t6 & g' & Hp & Hb & Hn).
  exists t1, t2, t3, t4, t5, t6. split; [exact Hp|]. split; [|exact Hn].
  unfold drawScene. rewrite Hc. cbv zeta. rewrite Hb. reflexivity.
Qed.

(** The calls of [drawScene] do not depend on the fuel or on the canvas,
    as long as the canvas has a context. *)
Lemma drawScene_calls_unique fuel1 fuel2 c1 c2 ctx1 ctx2 w h seed r1 r2 :
  getContext c1 = Some ctx1 -> getContext c2 = Some ctx2 ->
  drawScene fuel1 c1 w h seed = Some r1 ->
  drawScene fuel2 c2 w h seed = Some r2 ->
  r1 = r2.
Proof.
  intros H1 H2 E1 E2. unfold drawScene in *. rewrite H1 in E1. rewrite H2 in E2.
  cbv zeta in *.
  destruct (drawScene_body mulberry32_call fuel1 w h (mulberry32 seed))
    as [[[u1 g1] t1]|] eqn:B1; [|discriminate E1].
  destruct (drawScene_body mulberry32_call fuel2 w h (mulberry32 seed))
    as [[[u2 g2] t2]|] eqn:B2; [|discriminate E2].
  apply (drawScene_body_fuel mulberry32_call fuel1 (Nat.max fuel1 fuel2) w h
           ltac:(lia)) in B1.
  apply (drawScene_body_fuel mulberry32_call fuel2 (Nat.max fuel1 fuel2) w h
           ltac:(lia)) in B2.
  rewrite B1 in B2. injection B2 as _ _ <-.
  injection E1 as <-. injection E2 as <-. reflexivity.
Qed.

Lemma nonzero_800 : ~ 800 == 0.
Proof. intros H. discriminate H. Qed.

Lemma moderate_800 : 1 <= 800 <= 4294967296.
Proof. split; discriminate. Qed.



(** C6, as the code has it.  [drawScene] does not check the dimensions and
    never ends with InvalidDimensions: for every height, positive or not,
    and every width from 1 to 2^32, it returns normally after clearing the
    width-by-height rectangle and running the six passes. *)
Theorem drawScene_no_dimension_check fuel canvas ctx w h seed :
  getContext canvas = Some ctx -> 1 <= w <= 4294967296 -> (201 < fuel)%nat ->
  (forall e, ~ signals e (drawScene fuel canvas w h seed))
  /\ exists t1 t2 t3 t4 t5 t6,
       pipeline mulberry32_call fuel w h (mulberry32 seed) t1 t2 t3 t4 t5 t6
       /\ drawScene fuel canvas w h seed
          = Some (Returns, ClearRect 0 0 w h :: t1 ++ t2 ++ t3 ++ t4 ++ t5 ++ t6).
Proof.
  intros Hc [Hw _] Hf. split.
  - intros e. apply drawScene_never_throws.
  - destruct (drawScene_run fuel canvas ctx w h seed Hc ltac:(lra) Hf)
      as (t1 & t2 & t3 & t4 & t5 & t6 & Hp & E & _).
    exists t1, t2, t3, t4, t5, t6. auto.
Qed.

Lemma drawScene_no_dimension_check_witness :
  (forall e,
      ~ signals e (drawScene 202 {| getContext := Some fresh_context |}
                     800 (-1) 123))
  /\ exists t1 t2 t3 t4 t5 t6,
       pipeline mulberry32_call 202 800 (-1) (mulberry32 123) t1 t2 t3 t4 t5 t6
       /\ drawScene 202 {| getContext := Some fresh_context |} 800 (-1) 123
          = Some (Returns,
                  ClearRect 0 0 800 (-1) :: t1 ++ t2 ++ t3 ++ t4 ++ t5 ++ t6).
Proof.
  apply (drawScene_no_dimension_check 202
           {| getContext := Some fresh_context |} fresh_context 800 (-1) 123);
    [reflexivity | exact moderate_800 | lia].
Defined.

(** C6, as stated, fails: with height -1 the call does not end with
    InvalidDimensions; it returns normally and it has drawn. *)
Lemma drawScene_negative_height_draws :
  ~ signals InvalidDimensions
      (drawScene 202 {| getContext := Some fresh_context |} 800 (-1) 123)
  /\ exists calls,
       drawScene 202 {| getContext := Some fresh_context |} 800 (-1) 123
       = Some (Returns, ClearRect 0 0 800 (-1) :: calls).
Proof.
  split; [apply drawScene_never_throws|].
  destruct (drawScene_run 202 {| getContext := Some fresh_context |}
              fresh_context 800 (-1) 123 eq_refl nonzero_800 ltac:(lia))
    as (t1 & t2 & t3 & t4 & t5 & t6 & _ & E & _).
  eexists. exact E.
Qed.

(** C7, as the code has it.  Without a context [drawScene] returns at once
    and normally: it makes no context call, leaves the canvas as it was,
    and signals nothing to its caller. *)
Theorem drawScene_without_context fuel canvas w h seed :
  getContext canvas = None ->
  drawScene fuel canvas w h seed = Some (Returns, [])
  /\ drawScene_canvas fuel canvas w h seed = Some canvas
  /\ forall e, ~ signals e (drawScene fuel canvas w h seed).
Proof.
  intros Hc. assert (E : drawScene fuel canvas w h seed = Some (Returns, [])).
  { unfold drawScene. now rewrite Hc. }
  split; [exact E|]. split.
  - unfold drawScene_canvas. rewrite E, Hc. destruct canvas as [c].
    cbn in Hc. subst c. reflexivity.
  - intros e. apply drawScene_never_throws.
Qed.

Lemma drawScene_without_context_witness :
  drawScene 202 {| getContext := None |} 800 450 42 = Some (Returns, [])
  /\ drawScene_canvas 202 {| getContext := None |} 800 450 42
     = Some {| getContext := None |}
  /\ forall e, ~ signals e (drawScene 202 {| getContext := None |} 800 450 42).
Proof.
  apply (drawScene_without_context 202 {| getContext := None |} 800 450 42).
  reflexivity.
Defined.

(** C7, as stated, fails: without a context the call returns normally,
    as a successful call does; SurfaceUnavailable is not signalled. *)
Lemma drawScene_null_context_not_signalled :
  drawScene 202 {| getContext := None |} 800 450 42 = Some (Returns, [])
  /\ ~ signals SurfaceUnavailable
         (drawScene 202 {| getContext := None |} 800 450 42).
Proof.
  split; [reflexivity|]. intros [calls E]. discriminate E.
Qed.

(** ** The smoke layers *)

Lemma length_abscissae n x s : length (abscissae n x s) = n.
Proof. revert x. induction n as [|n IH]; intros x; cbn; [reflexivity | now rewrite IH]. Qed.

Lemma lookup_abscissae n x s k :
  (k < n)%nat ->
  exists v, abscissae n x s !! k = Some v /\ v == x + inject_Z (Z.of_nat k) * s.
Proof.
  revert x k. induction n as [|n IH]; intros x k Hk; [lia|].
  destruct k as [|k]; cbn [abscissae].
  - exists x. split; [reflexivity|]. change (inject_Z (Z.of_nat 0)) with 0. ring.
  - destruct (IH (x + s) k ltac:(lia)) as (v & Hv & Ev).
    exists v. split; [exact Hv|]. rewrite Ev, inject_nat_S. ring.
Qed.

Lemma path_abscissae_range (w : Q) (n : nat) :
  0 < w -> (0 < n)%nat -> Forall (fun x => 0 <= x <= w) (path_abscissae w n).
Proof.
  intros Hw Hn. unfold path_abscissae.
  assert (E : Qle_bool 0 w = true) by (apply Qle_bool_iff; lra).
  rewrite E. apply Forall_lookup_2. intros k x Hk.
  assert (Hlt : (k < S n)%nat).
  { apply lookup_lt_Some in Hk. now rewrite length_abscissae in Hk. }
  destruct (lookup_abscissae (S n) 0 (w / inject_Z (Z.of_nat n)) k Hlt)
    as (v & Hv & Ev).
  rewrite Hk in Hv. injection Hv as <-.
  set (N := inject_Z (Z.of_nat n)) in *.
  assert (HN : 0 < N).
  { unfold N. change 0 with (inject_Z 0). rewrite <- Zlt_Qlt. lia. }
  set (s := w / N) in *.
  assert (Hs : s * N == w) by (unfold s; field; lra).
  assert (Hspos : 0 < s) by (unfold s; apply Qlt_shift_div_l; lra).
  assert (Hk0 : 0 <= inject_Z (Z.of_nat k)).
  { change 0 with (inject_Z 0). rewrite <- Zle_Qle. lia. }
  assert (Hk1 : inject_Z (Z.of_nat k) <= N)
    by (unfold N; rewrite <- Zle_Qle; lia).
  assert (H1 : 0 <= inject_Z (Z.of_nat k) * s)
    by (apply Qmult_le_0_compat; lra).
  assert (H2 : inject_Z (Z.of_nat k) * s <= N * s)
    by (apply Qmult_le_compat_r; lra).
  assert (H3 : N * s == w) by (rewrite <- Hs; ring).
  rewrite Ev. lra.
Qed.

Lemma smoke_opacity_layer_8 :
  smoke_opacity 8 = 3062447746611937 # 18014398509481984.
Proof. vm_compute. reflexivity. Qed.

(** C8, as the code has it.  The Smoke pass paints 16 layers.  Layer [k]
    calls [random] once, takes the phase [offset = random() * 1000], builds
    the closed path from [(0, height)] through the points
    [(x, yBase - perlin(x * 0.002 + offset, k * 0.25 + offset * 0.01)
    * height * 0.22)], for 160 or 161 abscissae [x] that start at 0 and
    stay within the width, to [(width, height)], and fills it with the
    opacity that
    [0.25 - k * 0.01] gives in doubles: the double that the two-decimal
    number [0.25 - 0.01 k] denotes, except for the layers 8 and 14, where
    it is the double just below; it is within [2 ^ -55] of [0.25 - 0.01 k]
    in every layer. *)
Theorem drawSmoke_layers {G : Type} (random : G -> Q * G) fuel dc (g : G) :
  1 <= width dc -> (161 < fuel)%nat ->
  (exists xs,
      xs !! 0%nat = Some 0
      /\ (160 <= length xs <= 161)%nat
      /\ Forall (fun x => 0 <= x <= width dc) xs
      /\ drawSmoke random fuel dc g
         = Some (tt, state_after random 16 g, smoke_calls random dc xs g))
  /\ (forall k, (0 <= k < 16)%Z ->
        smoke_opacity_double k
        = (if (k =? 8)%Z || (k =? 14)%Z
           then next_down (smoke_opacity_decimal k)
           else smoke_opacity_decimal k)
        /\ Qabs (smoke_opacity k - (0.25 - 0.01 * inject_Z k))
           <= 1 # 36028797018963968).
Proof.
  intros Hw Hf. split.
  - exists (path_abscissae (width dc) 160).
    assert (E : Qle_bool 0 (width dc) = true) by (apply Qle_bool_iff; lra).
    split; [|split; [|split]].
    + unfold path_abscissae. rewrite E. reflexivity.
    + unfold path_abscissae. rewrite E, length_abscissae. lia.
    + apply path_abscissae_range; [lra | lia].
    + unfold drawSmoke, for_lt. cbv zeta.
      rewrite (for_from_one_draw random (drawSmoke_layer random fuel dc)
                 (fun i r => smoke_layer_calls dc i (r * 1000))).
      * reflexivity.
      * intros i g0. apply drawSmoke_layer_run; [lra | exact Hf].
  - intros k Hk.
    assert (Hc : In k [0; 1; 2; 3; 4; 5; 6; 7; 8; 9; 10; 11; 12; 13; 14; 15]%Z)
      by (cbn; lia).
    repeat (destruct Hc as [<- | Hc];
            [split; [vm_compute; reflexivity
                    | apply Qle_bool_imp_le; vm_compute; reflexivity]|]).
    destruct Hc.
Qed.

Lemma drawSmoke_layers_witness :
  (exists xs,
      xs !! 0%nat = Some 0
      /\ (160 <= length xs <= 161)%nat
      /\ Forall (fun x => 0 <= x <= 800) xs
      /\ drawSmoke mulberry32_call 162
           {| width := 800; height := 450;
              perlin := noise (Uint8Array.new 512) |}
           (mulberry32 42)
         = Some (tt, state_after mulberry32_call 16 (mulberry32 42),
                 smoke_calls mulberry32_call
                   {| width := 800; height := 450;
                      perlin := noise (Uint8Array.new 512) |}
                   xs (mulberry32 42)))
  /\ (forall k, (0 <= k < 16)%Z ->
        smoke_opacity_double k
        = (if (k =? 8)%Z || (k =? 14)%Z
           then next_down (smoke_opacity_decimal k)
           else smoke_opacity_decimal k)
        /\ Qabs (smoke_opacity k - (0.25 - 0.01 * inject_Z k))
           <= 1 # 36028797018963968).
Proof.
  apply (drawSmoke_layers mulberry32_call 162
           {| width := 800; height := 450; perlin := noise (Uint8Array.new 512) |}
           (mulberry32 42));
    [discriminate | lia].
Defined.

(** C8, as stated, fails: layer 8 is not filled with opacity
    [0.25 - 0.01 * 8].  The colour the layer sets has the opacity
    3062447746611937 / 2^54, which JavaScript prints as
    0.16999999999999998; it is neither the number 0.17 nor the double that
    0.17 denotes. *)
Lemma drawSmoke_layer_8_opacity :
  let dc := {| width := 800; height := 450;
               perlin := noise (Uint8Array.new 512) |} in
  let opacity := 3062447746611937 # 18014398509481984 in
  (exists g' t,
      drawSmoke_layer mulberry32_call 162 dc 8 (mulberry32 42)
      = Some (tt, g', t)
      /\ In (SetFillStyle (FillColor (Rgba 28 24 30 opacity))) t
      /\ forall alpha, In (SetFillStyle (FillColor (Rgba 28 24 30 alpha))) t ->
                       alpha = opacity)
  /\ ~ opacity == 0.25 - 0.01 * 8
  /\ opacity < double_value 0.17
  /\ smoke_opacity_double 8 <> 0.17%float.
Proof.
  cbv zeta. split; [|split; [|split]].
  - eexists _, _. split.
    + apply (drawSmoke_layer_run mulberry32_call); [exact nonzero_800 | lia].
    + unfold smoke_layer_calls, smoke_layer_path. rewrite smoke_opacity_layer_8.
      split.
      * apply in_or_app. right. apply in_or_app. right.
        right. right. left. reflexivity.
      * intros alpha H.
        apply in_app_or in H. destruct H as [H | H].
        { destruct H as [H | [H | []]]; discriminate H. }
        apply in_app_or in H. destruct H as [H | H].
        { apply in_map_iff in H. destruct H as (x & H & _). discriminate H. }
        destruct H as [H | [H | [H | [H | []]]]]; try discriminate H.
        now injection H as <-.
  - intros H. vm_compute in H. discriminate H.
  - vm_compute. reflexivity.
  - intros H. apply (f_equal (fun f => PrimFloat.eqb f 0.17)) in H.
    vm_compute in H. discriminate H.
Qed.

(** ** The composite mode over the whole scene *)


Lemma mode_neutral_mode c t :
  mode_neutral t ->
  globalCompositeOperation (current (exec c t))
  = globalCompositeOperation (current c).
Proof. intros Ht. now destruct (Ht c). Qed.

Lemma ends_with_haze_mode c w h t :
  ends_with_haze w h t ->
  globalCompositeOperation (current (exec c t)) = SourceOver.
Proof. intros (t0 & -> & _). rewrite exec_app, exec_haze_calls. reflexivity. Qed.




(** * Part III: further properties of the code *)

(** ** A canvas of width 0 *)

Section ZeroWidth.

Context {G : Type}.
Variable random : G -> Q * G.

Lemma bind_none_l {A B} (m : @Draw G A) (k : A -> @Draw G B) g :
  m g = None -> bind m k g = None.
Proof. intros E. unfold bind. now rewrite E. Qed.

Lemma bind_none_r {A B} (m : @Draw G A) (k : A -> @Draw G B) g a g1 t1 :
  m g = Some (a, g1, t1) -> k a g1 = None -> bind m k g = None.
Proof. intros E1 E2. unfold bind. now rewrite E1, E2. Qed.

Lemma drawSmoke_layer_zero_width fuel dc layer g :
  width dc == 0 -> drawSmoke_layer random fuel dc layer g = None.
Proof.
  intros Hw. destruct dc as [w h p]. cbn [width] in Hw.
  unfold drawSmoke_layer. cbv beta iota zeta.
  eapply bind_none_r; [apply call_random_run|]. cbv beta.
  eapply bind_none_r; [apply emit_run|].
  eapply bind_none_r; [apply emit_run|].
  apply bind_none_l. apply for_x_zero_step.
  - rewrite Hw. reflexivity.
  - rewrite Hw. apply Qle_refl.
  - intros x. eexists _, _. split; [apply emit_run | reflexivity].
Qed.

Lemma drawSmoke_zero_width fuel dc g :
  width dc == 0 -> drawSmoke random fuel dc g = None.
Proof.
  intros Hw. unfold drawSmoke, for_lt. cbv zeta.
  change (Z.to_nat 16) with 16%nat. cbn [for_from].
  apply bind_none_l. now apply drawSmoke_layer_zero_width.
Qed.

Lemma drawScene_body_zero_width fuel w h g :
  w == 0 -> drawScene_body random fuel w h g = None.
Proof.
  intros Hw. unfold drawScene_body.
  destruct (createPerlin_run random g) as (perlin & Hp).
  eapply bind_none_r; [exact Hp|]. cbv beta zeta.
  set (dc := {| width := w; height := h; perlin := perlin |}).
  eapply bind_none_r; [apply emit_run|].
  destruct (fillBackground_neutral dc (state_after random 255 g))
    as ([] & g1 & t1 & E1 & _).
  eapply bind_none_r; [exact E1|].
  destruct (drawExplosion_neutral random dc g1) as ([] & g2 & t2 & E2 & _).
  eapply bind_none_r; [exact E2|].
  apply bind_none_l. now apply drawSmoke_zero_width.
Qed.

End ZeroWidth.

(** X1.  With a context and a width equal to 0, [drawScene] never returns:
    the path loop of the first smoke layer steps by [width / 160 = 0], so
    no amount of fuel lets the call finish. *)
Theorem drawScene_zero_width_never_returns fuel canvas ctx w h seed :
  getContext canvas = Some ctx -> w == 0 ->
  drawScene fuel canvas w h seed = None.
Proof.
  intros Hc Hw. unfold drawScene. rewrite Hc. cbv zeta.
  now rewrite drawScene_body_zero_width.
Qed.

Lemma drawScene_zero_width_never_returns_witness :
  drawScene 1000 {| getContext := Some fresh_context |} 0 600 123 = None.
Proof.
  apply (drawScene_zero_width_never_returns 1000
           {| getContext := Some fresh_context |} fresh_context 0 600 123);
    reflexivity.
Defined.

(** ** The noise function: lattice points, period, gradients *)

Lemma floor_plus_integer (x : Q) (m : Z) :
  Math_floor (x + inject_Z m) = (Math_floor x + m)%Z.
Proof.
  unfold Math_floor.
  pose proof (Qfloor_le x) as H1. pose proof (Qlt_floor x) as H2.
  pose proof (Qfloor_le (x + inject_Z m)) as H3.
  pose proof (Qlt_floor (x + inject_Z m)) as H4.
  rewrite inject_Z_plus in H2, H4. change (inject_Z 1) with 1 in H2, H4.
  assert (Ha : inject_Z (Qfloor (x + inject_Z m)) < inject_Z (Qfloor x + m + 1)).
  { rewrite !inject_Z_plus. change (inject_Z 1) with 1. lra. }
  assert (Hb : inject_Z (Qfloor x + m) < inject_Z (Qfloor (x + inject_Z m) + 1)).
  { rewrite !inject_Z_plus. change (inject_Z 1) with 1. lra. }
  rewrite <- Zlt_Qlt in Ha, Hb. lia.
Qed.

Lemma fade_Qeq a b : a == b -> fade a == fade b.
Proof. intros E. unfold fade. rewrite E. reflexivity. Qed.

Lemma grad_uniform hash :
  (forall x y, grad hash x y = x + y)
  \/ (forall x y, grad hash x y = - x + y)
  \/ (forall x y, grad hash x y = y + - x)
  \/ (forall x y, grad hash x y = - y + - x).
Proof.
  unfold grad.
  destruct (band_3_cases (default 0%Z hash)) as [-> | [-> | [-> | ->]]];
    [ left | right; left | right; right; left | right; right; right ];
    intros x y; reflexivity.
Qed.

Lemma grad_Qeq hash x x' y y' :
  x == x' -> y == y' -> grad hash x y == grad hash x' y'.
Proof.
  intros Ex Ey.
  destruct (grad_uniform hash) as [H | [H | [H | H]]];
    rewrite !H, Ex, Ey; reflexivity.
Qed.

(** X3.  At every point with integer coordinates the noise function
    returns exactly 1/2, whatever the table. *)
Theorem noise_at_lattice_points (permutation : list Z) (i j : Z) :
  noise permutation (inject_Z i) (inject_Z j) == 1 # 2.
Proof.
  unfold noise.
  assert (Hx : inject_Z i - inject_Z (Math_floor (inject_Z i)) == 0)
    by (unfold Math_floor; rewrite Qfloor_Z; ring).
  assert (Hy : inject_Z j - inject_Z (Math_floor (inject_Z j)) == 0)
    by (unfold Math_floor; rewrite Qfloor_Z; ring).
  set (xf := inject_Z i - inject_Z (Math_floor (inject_Z i))) in *.
  set (yf := inject_Z j - inject_Z (Math_floor (inject_Z j))) in *.
  cbv zeta.
  set (aa := Uint8Array.get_at permutation (index_aa _ _ _)).
  set (ab := Uint8Array.get_at permutation (index_ab _ _ _)).
  set (ba := Uint8Array.get_at permutation (index_ba _ _ _)).
  set (bb := Uint8Array.get_at permutation (index_bb _ _ _)).
  assert (H00 : grad aa xf yf == 0).
  { rewrite (grad_Qeq aa xf 0 yf 0 Hx Hy).
    destruct (grad_cases aa 0 0) as [-> | [-> | [-> | ->]]]; reflexivity. }
  assert (Hu : fade xf == 0) by (rewrite (fade_Qeq xf 0 Hx); reflexivity).
  assert (Hv : fade yf == 0) by (rewrite (fade_Qeq yf 0 Hy); reflexivity).
  set (g10 := grad ba (xf - 1) yf).
  set (g01 := grad ab xf (yf - 1)).
  set (g11 := grad bb (xf - 1) (yf - 1)).
  unfold lerp. rewrite Hu, Hv, H00. field.
Qed.

(** X4.  The noise field repeats with period 256 along both axes. *)
Theorem noise_period_256 (permutation : list Z) (x y : Q) (k l : Z) :
  noise permutation (x + inject_Z (256 * k)) (y + inject_Z (256 * l))
  == noise permutation x y.
Proof.
  unfold noise. rewrite !floor_plus_integer.
  assert (HX : JS.band (Math_floor x + 256 * k) 255 = JS.band (Math_floor x) 255).
  { rewrite !band_255. rewrite (Z.mul_comm 256 k). apply Z_mod_plus_full. }
  assert (HY : JS.band (Math_floor y + 256 * l) 255 = JS.band (Math_floor y) 255).
  { rewrite !band_255. rewrite (Z.mul_comm 256 l). apply Z_mod_plus_full. }
  rewrite HX, HY.
  assert (Hx : x + inject_Z (256 * k) - inject_Z (Math_floor x + 256 * k)
               == x - inject_Z (Math_floor x))
    by (rewrite inject_Z_plus; ring).
  assert (Hy : y + inject_Z (256 * l) - inject_Z (Math_floor y + 256 * l)
               == y - inject_Z (Math_floor y))
    by (rewrite inject_Z_plus; ring).
  set (xf' := x + inject_Z (256 * k) - inject_Z (Math_floor x + 256 * k)) in *.
  set (yf' := y + inject_Z (256 * l) - inject_Z (Math_floor y + 256 * l)) in *.
  set (xf := x - inject_Z (Math_floor x)) in *.
  set (yf := y - inject_Z (Math_floor y)) in *.
  cbv zeta.
  set (aa := Uint8Array.get_at permutation (index_aa _ _ _)).
  set (ab := Uint8Array.get_at permutation (index_ab _ _ _)).
  set (ba := Uint8Array.get_at permutation (index_ba _ _ _)).
  set (bb := Uint8Array.get_at permutation (index_bb _ _ _)).
  assert (Hx1 : xf' - 1 == xf - 1) by (rewrite Hx; reflexivity).
  assert (Hy1 : yf' - 1 == yf - 1) by (rewrite Hy; reflexivity).
  pose proof (fade_Qeq _ _ Hx) as Hu. pose proof (fade_Qeq _ _ Hy) as Hv.
  pose proof (grad_Qeq aa _ _ _ _ Hx Hy) as H00.
  pose proof (grad_Qeq ba _ _ _ _ Hx1 Hy) as H10.
  pose proof (grad_Qeq ab _ _ _ _ Hx Hy1) as H01.
  pose proof (grad_Qeq bb _ _ _ _ Hx1 Hy1) as H11.
  unfold lerp. rewrite Hu, Hv, H00, H10, H01, H11. reflexivity.
Qed.

(** X5.  The fade curve fixes 0 and 1, is symmetric about 1/2, and maps
    [0, 1] into [0, 1]. *)
Theorem fade_curve (t : Q) :
  fade 0 == 0 /\ fade 1 == 1 /\ fade (1 - t) == 1 - fade t
  /\ (0 <= t <= 1 -> 0 <= fade t <= 1).
Proof.
  split; [reflexivity|]. split; [reflexivity|].
  split; [unfold fade; ring | apply fade_range].
Qed.

Lemma fade_curve_witness :
  fade 0 == 0 /\ fade 1 == 1 /\ fade (1 - (1 # 2)) == 1 - fade (1 # 2)
  /\ (0 <= 1 # 2 <= 1 -> 0 <= fade (1 # 2) <= 1).
Proof. apply (fade_curve (1 # 2)). Defined.

(** X6.  [grad] selects among three directions only: hashes 1 and 2 give
    the same gradient [y - x], and no hash gives [x - y]; a hash that is
    [undefined] gives [x + y]. *)
Theorem grad_three_directions (hash : option Z) (x y : Q) :
  (grad hash x y == x + y \/ grad hash x y == y - x \/ grad hash x y == - x - y)
  /\ grad (Some 1%Z) x y == grad (Some 2%Z) x y
  /\ grad None x y == x + y.
Proof.
  split.
  - destruct (grad_cases hash x y) as [-> | [-> | [-> | ->]]].
    + left. reflexivity.
    + right. left. ring.
    + right. left. ring.
    + right. right. ring.
  - split; [|reflexivity].
    assert (E1 : grad (Some 1%Z) x y = - x + y) by reflexivity.
    assert (E2 : grad (Some 2%Z) x y = y + - x) by reflexivity.
    rewrite E1, E2. ring.
Qed.

(** ** mulberry32: seeds and period *)

Local Open Scope Z_scope.

(** X7.  The seed is taken modulo 2^32: it is stored as a value in
    [0, 2^32), and seeds that differ by a multiple of 2^32 (for instance a
    negative 32-bit seed and its unsigned value) start the same stream. *)
Theorem mulberry32_seed_modulo (seed k : Z) :
  mulberry32 seed = seed mod 2 ^ 32
  /\ 0 <= mulberry32 seed < 2 ^ 32
  /\ mulberry32 (seed + k * 2 ^ 32) = mulberry32 seed
  /\ forall n,
       nth_draw mulberry32_call n (mulberry32 (seed + k * 2 ^ 32))
       = nth_draw mulberry32_call n (mulberry32 seed).
Proof.
  assert (E : mulberry32 (seed + k * 2 ^ 32) = mulberry32 seed).
  { rewrite (mulberry32_seed (seed + k * 2 ^ 32)), (mulberry32_seed seed).
    unfold JS.ToUint32. apply Z_mod_plus_full. }
  split; [apply (mulberry32_seed seed)|].
  split; [rewrite (mulberry32_seed seed); apply ToUint32_range|].
  split; [exact E|].
  intros n. now rewrite E.
Qed.

(** X8.  The state of the generator returns to a value it had, modulo
    2^32, exactly when the numbers of calls differ by a multiple of 2^32:
    the state sequence has period 2^32. *)
Theorem mulberry32_state_period (seed : Z) (n m : nat) :
  JS.ToUint32 (mulberry32_state n (mulberry32 seed))
  = JS.ToUint32 (mulberry32_state m (mulberry32 seed))
  <-> Z.of_nat n mod 2 ^ 32 = Z.of_nat m mod 2 ^ 32.
Proof.
  rewrite !mulberry32_state_closed. rewrite !Z.cong_iff_ex.
  split.
  - intros [q Hq].
    assert (Hd : (2 ^ 32 | (Z.of_nat n - Z.of_nat m))).
    { apply (Z.gauss _ 0x6D2B79F5).
      - exists q. lia.
      - reflexivity. }
    destruct Hd as [q' Hq']. exists q'. exact Hq'.
  - intros [q Hq]. exists (q * 0x6D2B79F5). lia.
Qed.

(** ** createPerlin: what it consumes *)

(** X9.  Whatever the generator returns, [createPerlin] finishes after
    exactly 255 calls of [random], makes no context call, and closes over
    a table of 512 entries that are all between 0 and 255. *)
Theorem createPerlin_consumes_255_draws
    {G : Type} (random : G -> Q * G) (g : G) :
  exists permutation,
    createPerlin random g
    = Some (noise permutation, state_after random 255 g, [])
    /\ length permutation = 512%nat
    /\ Forall is_byte permutation.
Proof.
  destruct (createPerlin_tables_total random g)
    as (p & permutation & Ht & _ & Hlen & Hb & Hl & Hk).
  exists permutation.
  split; [unfold createPerlin, bind; rewrite Ht; reflexivity|].
  split; [exact Hl|].
  apply Forall_lookup_2. intros k v Hv.
  assert (Hlt : (k < 512)%nat) by (rewrite <- Hl; eapply lookup_lt_Some; eauto).
  rewrite (Hk k Hlt) in Hv. eapply Forall_lookup_1; eauto.
Qed.

(** ** Counting draws and calls *)

Local Open Scope Q_scope.

Lemma count_calls_app f t1 t2 :
  count_calls f (t1 ++ t2) = (count_calls f t1 + count_calls f t2)%nat.
Proof. unfold count_calls. now rewrite List.filter_app, length_app. Qed.

Lemma scale_band (w r a b : Q) :
  0 <= w -> 0 <= r <= 1 -> 0 <= b ->
  w * a <= w * (a + r * b) <= w * (a + b).
Proof.
  intros Hw [Hr0 Hr1] Hb.
  assert (H1 : 0 <= b * (w * r))
    by (repeat apply Qmult_le_0_compat; assumption).
  assert (H2 : 0 <= b * (w * (1 - r)))
    by (repeat apply Qmult_le_0_compat; lra).
  assert (E1 : w * (a + r * b) - w * a == b * (w * r)) by ring.
  assert (E2 : w * (a + b) - w * (a + r * b) == b * (w * (1 - r))) by ring.
  rewrite <- E1 in H1. rewrite <- E2 in H2. lra.
Qed.

Section Steps.

Context {G : Type}.
Variable random : G -> Q * G.
Hypothesis random_range : forall g, 0 <= fst (random g) < 1.

Lemma steps_ret {A} (a : A) (R : nat -> list call -> Prop) :
  R O [] -> steps random (ret a) R.
Proof. intros HR g. exists a, O, []. auto. Qed.

Lemma steps_emits (m : @Draw G unit) (t : list call)
    (R : nat -> list call -> Prop) :
  (forall g, m g = Some (tt, g, t)) -> R O t -> steps random m R.
Proof. intros Hm HR g. exists tt, O, t. split; [apply Hm | exact HR]. Qed.

Lemma steps_bind {A B} (m : @Draw G A) (k : A -> @Draw G B)
    (R1 R2 R : nat -> list call -> Prop) :
  steps random m R1 -> (forall a, steps random (k a) R2) ->
  (forall d1 t1 d2 t2, R1 d1 t1 -> R2 d2 t2 -> R (d1 + d2)%nat (t1 ++ t2)) ->
  steps random (bind m k) R.
Proof.
  intros Hm Hk HR g. unfold bind.
  destruct (Hm g) as (a & d1 & t1 & E1 & H1). rewrite E1.
  destruct (Hk a (state_after random d1 g)) as (b & d2 & t2 & E2 & H2).
  rewrite E2. exists b, (d1 + d2)%nat, (t1 ++ t2).
  rewrite state_after_add. auto.
Qed.

(** A call of [random] followed by a computation that uses the value. *)
Lemma steps_bind_random {B} (k : Q -> @Draw G B)
    (R2 R : nat -> list call -> Prop) :
  (forall r, 0 <= r < 1 -> steps random (k r) R2) ->
  (forall d t, R2 d t -> R (S d) t) ->
  steps random (bind (call_random random) k) R.
Proof.
  intros Hk HR g. unfold bind. rewrite call_random_run.
  destruct (Hk (fst (random g)) (random_range g) (snd (random g)))
    as (b & d & t & E & H). rewrite E.
  exists b, (S d), t. split; [reflexivity | now apply HR].
Qed.

Lemma steps_for_from (body : Z -> @Draw G unit)
    (Rb : nat -> list call -> Prop) (Rn : nat -> nat -> list call -> Prop) :
  (forall i, steps random (body i) Rb) ->
  Rn O O [] ->
  (forall n d1 t1 d2 t2,
      Rb d1 t1 -> Rn n d2 t2 -> Rn (S n) (d1 + d2)%nat (t1 ++ t2)) ->
  forall n i, steps random (for_from n i body) (Rn n).
Proof.
  intros Hb H0 HS. induction n as [|n IH]; intros i; cbn [for_from].
  - now apply steps_ret.
  - eapply steps_bind; [apply Hb | intros _; apply IH | apply HS].
Qed.

Lemma steps_weaken {A} (m : @Draw G A) (R R' : nat -> list call -> Prop) :
  steps random m R -> (forall d t, R d t -> R' d t) -> steps random m R'.
Proof.
  intros Hm HR g. destruct (Hm g) as (a & d & t & E & H). eauto 7.
Qed.

(** *** drawExplosion *)

Lemma floor_two_draws (r : Q) (n : Z) :
  0 <= r < 1 -> (0 < n)%Z -> (0 <= Math_floor (r * inject_Z n) < n)%Z.
Proof.
  intros Hr Hn. now apply floor_scale.
Qed.

Lemma drawExplosion_steps dc :
  0 <= width dc -> 0 <= height dc ->
  steps random (drawExplosion random dc)
    (fun d t =>
       exists n, (n = 3 \/ n = 4)%nat /\ d = (1 + 3 * n)%nat
                 /\ length t = (4 * n)%nat /\ count_calls is_arc t = n
                 /\ Forall (fireball_ok dc) t).
Proof.
  intros Hw Hh. destruct dc as [w h p]. cbn [width height] in Hw, Hh.
  set (dc := {| width := w; height := h; perlin := p |}).
  unfold drawExplosion. cbv beta iota zeta.
  apply steps_bind_random with
    (R2 := fun d t =>
             exists n, (n = 3 \/ n = 4)%nat /\ d = (3 * n)%nat
                       /\ length t = (4 * n)%nat /\ count_calls is_arc t = n
                       /\ Forall (fireball_ok dc) t).
  2:{ intros d t (n & Hn & -> & H). exists n. auto. }
  intros r Hr. unfold for_lt.
  pose proof (floor_two_draws r 2 Hr ltac:(lia)) as Hf.
  change (inject_Z 2) with 2 in Hf.
  set (n := Z.to_nat (3 + Math_floor (r * 2))).
  eapply steps_weaken.
  - apply steps_for_from with
      (Rb := fun d t => d = 3%nat /\ length t = 4%nat
                        /\ count_calls is_arc t = 1%nat
                        /\ Forall (fireball_ok dc) t)
      (Rn := fun n d t => d = (3 * n)%nat /\ length t = (4 * n)%nat
                          /\ count_calls is_arc t = n
                          /\ Forall (fireball_ok dc) t).
    + intros i.
      apply steps_bind_random with
        (R2 := fun d t => d = 2%nat /\ length t = 4%nat
                          /\ count_calls is_arc t = 1%nat
                          /\ Forall (fireball_ok dc) t);
        [intros r0 Hr0 | intros d t (-> & H); auto].
      apply steps_bind_random with
        (R2 := fun d t => d = 1%nat /\ length t = 4%nat
                          /\ count_calls is_arc t = 1%nat
                          /\ Forall (fireball_ok dc) t);
        [intros r1 Hr1 | intros d t (-> & H); auto].
      apply steps_bind_random with
        (R2 := fun d t => d = 0%nat /\ length t = 4%nat
                          /\ count_calls is_arc t = 1%nat
                          /\ Forall (fireball_ok dc) t);
        [intros r2 Hr2 | intros d t (-> & H); auto].
      eapply steps_emits; [intros g; reflexivity|].
      split; [reflexivity|]. split; [reflexivity|]. split; [reflexivity|].
      pose proof (scale_band w r0 0.38 0.24 Hw ltac:(lra) ltac:(lra)).
      pose proof (scale_band h r1 0.62 0.06 Hh ltac:(lra) ltac:(lra)).
      pose proof (scale_band w r2 0.12 0.08 Hw ltac:(lra) ltac:(lra)).
      repeat constructor; cbn; lra.
    + repeat split; constructor.
    + intros k d1 t1 d2 t2 (-> & L1 & C1 & F1) (-> & L2 & C2 & F2).
      rewrite length_app, count_calls_app, L1, L2, C1, C2.
      repeat split; try lia. now apply Forall_app.
  - cbv beta. intros d t H. exists n. split; [unfold n; lia | exact H].
Qed.

(** *** drawAtmosphericDust *)

Lemma unit_scale (w r : Q) : 0 <= w -> 0 <= r <= 1 -> 0 <= r * w <= w.
Proof.
  intros Hw [Hr0 Hr1].
  assert (H1 : 0 <= r * w) by (now apply Qmult_le_0_compat).
  assert (H2 : 0 <= (1 - r) * w) by (apply Qmult_le_0_compat; lra).
  assert (E : w - r * w == (1 - r) * w) by ring.
  rewrite <- E in H2. lra.
Qed.


(** *** drawEmbers *)

Lemma state_preserving_nil : state_preserving [].
Proof. intros c. auto. Qed.

Lemma state_preserving_app t1 t2 :
  state_preserving t1 -> state_preserving t2 -> state_preserving (t1 ++ t2).
Proof.
  intros H1 H2 c. rewrite exec_app.
  destruct (H1 c) as (A1 & B1 & C1).
  destruct (H2 (exec c t1)) as (A2 & B2 & C2).
  repeat split; congruence.
Qed.

Lemma bind_random_eq {B} (k : Q -> @Draw G B) g :
  bind (call_random random) k g = k (fst (random g)) (snd (random g)).
Proof.
  unfold bind. rewrite call_random_run.
  destruct (k _ _) as [[[? ?] ?]|]; reflexivity.
Qed.

Lemma drawEmbers_steps dc :
  steps random (drawEmbers random dc)
    (fun d t =>
       let n := Z.to_nat (embers_count (width dc)) in
       exists k, (k <= n)%nat /\ d = (2 * n + 4 * k)%nat
                 /\ count_calls is_fillRect t = k
                 /\ count_calls is_save t = k
                 /\ count_calls is_restore t = k
                 /\ length t = (6 * k)%nat
                 /\ state_preserving t).
Proof.
  destruct dc as [w h p]. cbn [width].
  unfold drawEmbers, for_lt, embers_count. cbv beta iota zeta.
  apply steps_for_from with
    (Rb := fun d t =>
             (d = 2%nat /\ t = [])
             \/ (d = 6%nat /\ count_calls is_fillRect t = 1%nat
                 /\ count_calls is_save t = 1%nat
                 /\ count_calls is_restore t = 1%nat
                 /\ length t = 6%nat /\ state_preserving t))
    (Rn := fun n d t =>
             exists k, (k <= n)%nat /\ d = (2 * n + 4 * k)%nat
                       /\ count_calls is_fillRect t = k
                       /\ count_calls is_save t = k
                       /\ count_calls is_restore t = k
                       /\ length t = (6 * k)%nat
                       /\ state_preserving t).
  - intros i g.
    rewrite bind_random_eq. cbv beta. rewrite bind_random_eq. cbv beta.
    destruct (Qltb _ _).
    + exists tt, 2%nat, []. split; [reflexivity | left; auto].
    + eexists tt, 6%nat, _. split.
      * repeat (eapply bind_run;
                [first [apply call_random_run | apply emit_run] | cbv beta]).
        apply emit_run.
      * right. split; [reflexivity|].
        do 4 (split; [reflexivity|]).
        intros c0. cbn. auto.
  - exists O. do 6 (split; [first [lia | reflexivity]|]).
    apply state_preserving_nil.
  - intros n d1 t1 d2 t2 Hb (k & Hk & -> & C1 & C2 & C3 & L & HS).
    destruct Hb as [(-> & ->) | (-> & B1 & B2 & B3 & BL & BS)].
    + exists k. cbn [app]. split; [lia|]. split; [lia|]. auto 10.
    + exists (S k).
      rewrite !count_calls_app, length_app, B1, B2, B3, BL, C1, C2, C3, L.
      do 6 (split; [lia|]). now apply state_preserving_app.
Qed.

(** *** drawTerrain *)

Lemma count_calls_map_none (f : call -> bool) (h : Q -> call) xs :
  (forall x, f (h x) = false) -> count_calls f (map h xs) = O.
Proof.
  intros Hf. unfold count_calls.
  induction xs as [|x xs IH]; cbn; [reflexivity|]. now rewrite Hf.
Qed.

Lemma count_calls_cons (f : call -> bool) c t :
  count_calls f (c :: t)
  = ((if f c then 1 else 0) + count_calls f t)%nat.
Proof. unfold count_calls. cbn. now destruct (f c). Qed.

Lemma drawTerrain_structure_run dc horizon structures i g :
  exists t,
    drawTerrain_structure random dc horizon structures i g
    = Some (tt, state_after random 9 g, t)
    /\ count_calls is_save t = 1%nat
    /\ count_calls is_restore t = 1%nat
    /\ count_calls is_fill t = 1%nat
    /\ count_calls is_fillRect t = 0%nat
    /\ length t = 15%nat.
Proof.
  destruct dc as [w h p]. unfold drawTerrain_structure. cbv beta iota zeta.
  eexists. split.
  - repeat (eapply bind_run;
            [first [apply call_random_run | apply emit_run] | cbv beta]).
    apply emit_run.
  - repeat split; reflexivity.
Qed.

Lemma drawTerrain_steps fuel dc :
  ~ width dc == 0 -> (201 < fuel)%nat ->
  steps random (drawTerrain random fuel dc)
    (fun d t =>
       exists n, (12 <= n <= 17)%nat /\ d = (1 + 9 * n)%nat
                 /\ count_calls is_save t = n
                 /\ count_calls is_restore t = n
                 /\ count_calls is_fill t = S n
                 /\ count_calls is_fillRect t = 1%nat
                 /\ length t
                    = (length (path_abscissae (width dc) 200) + 10 + 15 * n)%nat).
Proof.
  intros Hw Hf g. destruct dc as [w h p]. cbn [width] in *.
  set (dc := {| width := w; height := h; perlin := p |}).
  set (horizon := h * 0.68).
  pose proof (floor_scale (fst (random g)) 6 (random_range g) ltac:(lia)) as Hr.
  change (inject_Z 6) with 6 in Hr.
  set (structures := (12 + Math_floor (fst (random g) * 6))%Z) in *.
  set (n := Z.to_nat structures).
  destruct (steps_for_from
              (drawTerrain_structure random dc horizon structures)
              (fun d t => d = 9%nat /\ count_calls is_save t = 1%nat
                          /\ count_calls is_restore t = 1%nat
                          /\ count_calls is_fill t = 1%nat
                          /\ count_calls is_fillRect t = 0%nat
                          /\ length t = 15%nat)
              (fun n d t => d = (9 * n)%nat /\ count_calls is_save t = n
                            /\ count_calls is_restore t = n
                            /\ count_calls is_fill t = n
                            /\ count_calls is_fillRect t = 0%nat
                            /\ length t = (15 * n)%nat))
    with (n := n) (i := 0%Z) (g := snd (random g))
    as ([] & d & tl & El & Hd & Hs & Hre & Hfi & Hfr & Hl).
  { intros i g0.
    destruct (drawTerrain_structure_run dc horizon structures i g0)
      as (t & E & H).
    exists tt, 9%nat, t. auto. }
  { repeat split; reflexivity. }
  { intros k d1 t1 d2 t2 (-> & S1 & R1 & F1 & A1 & L1)
      (-> & S2 & R2 & F2 & A2 & L2).
    rewrite !count_calls_app, length_app, S1, S2, R1, R2, F1, F2, A1, A2, L1, L2.
    repeat split; lia. }
  eexists tt, (S d), _. split.
  - unfold drawTerrain. cbv zeta. fold horizon.
    eapply bind_run; [| apply (drawTerrain_haze_run dc)].
    unfold drawTerrain_silhouettes. cbv beta iota zeta.
    eapply bind_run; [apply emit_run|].
    eapply bind_run; [apply emit_run|].
    eapply bind_run.
    { change (w / 200) with (w / inject_Z (Z.of_nat 200)).
      apply (path_loop_run
               (fun x => LineTo x (horizon + p (x * 0.003) 20 * h * 0.18)));
        [exact Hw | lia | lia]. }
    do 4 (eapply bind_run; [apply emit_run|]).
    eapply bind_run; [apply call_random_run|]. cbv beta.
    fold structures. unfold for_lt. fold n. exact El.
  - exists n. split; [unfold n, structures; lia|]. split; [lia|].
    unfold haze_calls. cbv zeta.
    repeat rewrite ?count_calls_cons, ?count_calls_app.
    rewrite !count_calls_map_none by reflexivity.
    cbn [length]. rewrite !length_app, length_map. cbn [length].
    rewrite Hs, Hre, Hfi, Hfr, Hl. cbn [is_save is_restore is_fill is_fillRect].
    change (count_calls is_save []) with O.
    change (count_calls is_restore []) with O.
    change (count_calls is_fill []) with O.
    change (count_calls is_fillRect []) with O.
    repeat split; lia.
Qed.

End Steps.

(** ** The transformation and the stack of saved states *)

Lemma frame_neutral_nil : frame_neutral [].
Proof. intros c. auto. Qed.

Lemma frame_neutral_app t1 t2 :
  frame_neutral t1 -> frame_neutral t2 -> frame_neutral (t1 ++ t2).
Proof.
  intros H1 H2 c. rewrite exec_app.
  destruct (H1 c) as (A1 & B1). destruct (H2 (exec c t1)) as (A2 & B2).
  split; congruence.
Qed.

Lemma frame_neutral_plain c : plain_call c = true -> frame_neutral [c].
Proof. intros Hc k. destruct c; try discriminate Hc; cbn; auto. Qed.

Lemma frame_neutral_plain_calls t :
  forallb plain_call t = true -> frame_neutral t.
Proof.
  induction t as [|c t IH]; cbn; intros H.
  - apply frame_neutral_nil.
  - apply andb_prop in H as [Hc Ht].
    change (c :: t) with ([c] ++ t).
    apply frame_neutral_app; [now apply frame_neutral_plain | now apply IH].
Qed.

Lemma forallb_map_plain (f : Q -> call) xs :
  (forall x, plain_call (f x) = true) -> forallb plain_call (map f xs) = true.
Proof. intros Hf. induction xs as [|x xs IH]; cbn; [reflexivity|]. now rewrite Hf. Qed.

(** [restore] gives back the whole drawing state that [save] stored. *)
Lemma frame_neutral_save_restore t1 t2 :
  t1 = [Save] -> restores_after_neutral t2 -> frame_neutral (t1 ++ t2).
Proof.
  intros -> (t0 & -> & H0) c.
  change ([Save] ++ t0 ++ [Restore]) with ([Save] ++ (t0 ++ [Restore])).
  rewrite !exec_app.
  set (c1 := exec c [Save]).
  destruct (H0 c1) as (_ & Hs & _).
  cbn [exec foldl exec_call]. rewrite Hs. cbn. auto.
Qed.

Lemma frame_neutral_haze w h : frame_neutral (haze_calls w h).
Proof. intros c. rewrite exec_haze_calls. cbn. auto. Qed.

Lemma runs_elim {G A : Type} (m : @Draw G A) (P : list call -> Prop) g a g' t :
  runs m P -> m g = Some (a, g', t) -> P t.
Proof.
  intros Hm E. destruct (Hm g) as (a' & g'' & t' & E' & H).
  rewrite E in E'. now injection E' as _ _ <-.
Qed.

Ltac framed :=
  cbv beta;
  lazymatch goal with
  | |- runs (ret _) frame_neutral => apply runs_ret; apply frame_neutral_nil
  | |- runs (bind (emit Save) _) frame_neutral =>
      eapply runs_bind with (P1 := fun t => t = [Save])
                            (P2 := restores_after_neutral);
      [ apply runs_emit; reflexivity
      | intros ?; bracketed
      | apply frame_neutral_save_restore ]
  | |- runs (bind _ _) frame_neutral =>
      eapply runs_bind with (P1 := frame_neutral) (P2 := frame_neutral);
      [ framed | intros ?; framed | apply frame_neutral_app ]
  | |- runs (emit _) frame_neutral =>
      apply runs_emit; apply frame_neutral_plain; reflexivity
  | |- runs (call_random _) frame_neutral =>
      apply runs_random; apply frame_neutral_nil
  | |- runs (for_lt _ _) frame_neutral =>
      apply runs_for_lt;
      [ intros ?; framed | apply frame_neutral_nil | apply frame_neutral_app ]
  | |- runs (if ?b then _ else _) frame_neutral => destruct b; framed
  | |- _ => idtac
  end
with bracketed :=
  cbv beta;
  lazymatch goal with
  | |- runs (emit Restore) restores_after_neutral =>
      apply runs_emit; apply restores_after_neutral_end
  | |- runs (bind _ _) restores_after_neutral =>
      eapply runs_bind with (P1 := mode_neutral)
                            (P2 := restores_after_neutral);
      [ first [ apply runs_emit; apply mode_neutral_simple; reflexivity
              | apply runs_random; apply mode_neutral_nil ]
      | intros ?; bracketed
      | apply restores_after_neutral_app ]
  | |- _ => idtac
  end.

Section Frame.

Context {G : Type}.
Variable random : G -> Q * G.

Lemma fillBackground_framed dc : runs (@fillBackground G dc) frame_neutral.
Proof.
  destruct dc as [w h p]. unfold fillBackground. cbv beta iota zeta. framed.
Qed.

Lemma drawExplosion_framed dc : runs (drawExplosion random dc) frame_neutral.
Proof.
  destruct dc as [w h p]. unfold drawExplosion. cbv beta iota zeta. framed.
Qed.

Lemma drawSmoke_framed fuel dc :
  ~ width dc == 0 -> (161 < fuel)%nat ->
  runs (drawSmoke random fuel dc) frame_neutral.
Proof.
  intros Hw Hf. unfold drawSmoke. cbv zeta.
  apply runs_for_lt; [| apply frame_neutral_nil | apply frame_neutral_app].
  intros layer g. eexists _, _, _.
  split; [now apply drawSmoke_layer_run|].
  apply frame_neutral_plain_calls. unfold smoke_layer_calls, smoke_layer_path.
  cbn [app forallb plain_call andb].
  rewrite forallb_app. rewrite forallb_map_plain by reflexivity. reflexivity.
Qed.

Lemma drawEmbers_framed dc : runs (drawEmbers random dc) frame_neutral.
Proof.
  destruct dc as [w h p]. unfold drawEmbers. cbv beta iota zeta. framed.
Qed.

Lemma drawTerrain_structure_framed dc horizon structures i :
  runs (drawTerrain_structure random dc horizon structures i) frame_neutral.
Proof.
  destruct dc as [w h p]. unfold drawTerrain_structure. cbv beta iota zeta.
  framed.
Qed.

Lemma drawTerrain_framed fuel dc :
  ~ width dc == 0 -> (201 < fuel)%nat ->
  runs (drawTerrain random fuel dc) frame_neutral.
Proof.
  intros Hw Hf. unfold drawTerrain. cbv zeta.
  eapply runs_bind with (P1 := frame_neutral) (P2 := frame_neutral);
    [| intros _ | apply frame_neutral_app].
  - destruct dc as [w h p]. cbn [width height] in *.
    unfold drawTerrain_silhouettes. cbv beta iota zeta. framed.
    + change (w / 200) with (w / inject_Z (Z.of_nat 200)).
      apply (runs_path_loop
               (fun x => LineTo x (h * 0.68 + p (x * 0.003) 20 * h * 0.18)));
        [exact Hw | lia | lia |].
      apply frame_neutral_plain_calls. now apply forallb_map_plain.
    + apply (drawTerrain_structure_framed
               {| width := w; height := h; perlin := p |}).
  - intros g. eexists _, _, _.
    split; [apply drawTerrain_haze_run | apply frame_neutral_haze].
Qed.

Lemma drawAtmosphericDust_framed dc :
  runs (drawAtmosphericDust random dc) frame_neutral.
Proof.
  destruct dc as [w h p]. unfold drawAtmosphericDust. cbv beta iota zeta. framed.
Qed.

End Frame.

(** X10.  For a width from 1 to 2^32 and whatever state the context is
    in, [drawScene] returns, leaves the current transformation and the
    stack of saved states of the context as it found them, and leaves the
    composite mode at 'source-over'. *)
Theorem drawScene_keeps_transform fuel canvas ctx w h seed :
  getContext canvas = Some ctx -> 1 <= w <= 4294967296 -> (201 < fuel)%nat ->
  exists calls,
    drawScene fuel canvas w h seed = Some (Returns, calls)
    /\ ctm (current (exec ctx calls)) = ctm (current ctx)
    /\ saved (exec ctx calls) = saved ctx
    /\ globalCompositeOperation (current (exec ctx calls)) = SourceOver.
Proof.
  intros Hc [Hw1 _] Hf. assert (Hw : ~ w == 0) by lra.
  destruct (drawScene_run fuel canvas ctx w h seed Hc Hw Hf)
    as (t1 & t2 & t3 & t4 & t5 & t6 & Hp & Hd & N1 & N2 & N3 & N4 & N5 & N6).
  destruct Hp as (perlin & g0 & g1 & g2 & g3 & g4 & g5 & g6 & _ & _ & Hp).
  cbv zeta in Hp. destruct Hp as (E1 & E2 & E3 & E4 & E5 & E6).
  set (dc := {| width := w; height := h; perlin := perlin |}) in *.
  pose proof (runs_elim _ _ _ _ _ _ (fillBackground_framed dc) E1) as F1.
  pose proof (runs_elim _ _ _ _ _ _ (drawExplosion_framed _ dc) E2) as F2.
  pose proof (runs_elim _ _ _ _ _ _
                (drawSmoke_framed _ fuel dc Hw ltac:(lia)) E3) as F3.
  pose proof (runs_elim _ _ _ _ _ _ (drawEmbers_framed _ dc) E4) as F4.
  pose proof (runs_elim _ _ _ _ _ _ (drawTerrain_framed _ fuel dc Hw Hf) E5) as F5.
  pose proof (runs_elim _ _ _ _ _ _ (drawAtmosphericDust_framed _ dc) E6) as F6.
  eexists. split; [exact Hd|].
  assert (Hframe : frame_neutral
                     (ClearRect 0 0 w h :: t1 ++ t2 ++ t3 ++ t4 ++ t5 ++ t6)).
  { change (ClearRect 0 0 w h :: t1 ++ t2 ++ t3 ++ t4 ++ t5 ++ t6)
      with ([ClearRect 0 0 w h] ++ t1 ++ t2 ++ t3 ++ t4 ++ t5 ++ t6).
    apply frame_neutral_app; [now apply frame_neutral_plain|].
    repeat (apply frame_neutral_app; [assumption|]). assumption. }
  destruct (Hframe ctx) as (A & B). split; [exact A|]. split; [exact B|].
  assert (Hall : ClearRect 0 0 w h :: t1 ++ t2 ++ t3 ++ t4 ++ t5 ++ t6
                 = ((ClearRect 0 0 w h :: t1 ++ t2 ++ t3 ++ t4) ++ t5) ++ t6).
  { cbn [app]. rewrite <- !app_assoc. reflexivity. }
  rewrite Hall, exec_app, (mode_neutral_mode _ t6 N6), exec_app.
  now apply (ends_with_haze_mode _ w h).
Qed.

Lemma drawScene_keeps_transform_witness :
  exists calls,
    drawScene 202 {| getContext := Some fresh_context |} 800 450 42
    = Some (Returns, calls)
    /\ ctm (current (exec fresh_context calls)) = ctm (current fresh_context)
    /\ saved (exec fresh_context calls) = saved fresh_context
    /\ globalCompositeOperation (current (exec fresh_context calls)) = SourceOver.
Proof.
  apply (drawScene_keeps_transform 202 {| getContext := Some fresh_context |}
           fresh_context 800 450 42);
    [reflexivity | exact moderate_800 | lia].
Defined.

(** ** The passes: how many draws, how many calls, where *)

(** X11.  With draws in [0, 1) and a canvas of non-negative size, the
    Explosion pass paints 3 or 4 fireballs: for [n] fireballs it calls
    [random] [1 + 3 n] times and makes [4 n] calls, [n] of them [arc], each
    a full circle with its centre within [0.38, 0.62] of the width and
    [0.62, 0.68] of the height and a radius within [0.12, 0.20] of the
    width. *)
Theorem drawExplosion_fireballs {G : Type} (random : G -> Q * G) dc :
  (forall g, 0 <= fst (random g) < 1) ->
  0 <= width dc -> 0 <= height dc ->
  steps random (drawExplosion random dc)
    (fun d t =>
       exists n, (n = 3 \/ n = 4)%nat /\ d = (1 + 3 * n)%nat
                 /\ length t = (4 * n)%nat /\ count_calls is_arc t = n
                 /\ Forall (fireball_ok dc) t).
Proof. intros Hr Hw Hh. now apply drawExplosion_steps. Qed.

Lemma nonneg_800 : 0 <= 800.
Proof. discriminate. Qed.

Lemma nonneg_450 : 0 <= 450.
Proof. discriminate. Qed.

Lemma drawExplosion_fireballs_witness :
  steps mulberry32_call
    (drawExplosion mulberry32_call
       {| width := 800; height := 450; perlin := noise (Uint8Array.new 512) |})
    (fun d t =>
       exists n, (n = 3 \/ n = 4)%nat /\ d = (1 + 3 * n)%nat
                 /\ length t = (4 * n)%nat /\ count_calls is_arc t = n
                 /\ Forall (fireball_ok
                              {| width := 800; height := 450;
                                 perlin := noise (Uint8Array.new 512) |}) t).
Proof.
  apply (drawExplosion_fireballs mulberry32_call
           {| width := 800; height := 450; perlin := noise (Uint8Array.new 512) |});
    [exact mulberry32_call_range | exact nonneg_800 | exact nonneg_450].
Defined.



(** The floor of the rounded product: at width 720 the program tries 503
    candidates, one less than the floor of the exact product. *)
Lemma embers_count_720 :
  embers_count 720 = 503%Z /\ Math_floor (720 * 0.7) = 504%Z.
Proof. split; vm_compute; reflexivity. Qed.

(** X13.  For a width from 1 to 2^32 the Embers pass tries [n] candidates,
    [n] the floor of the double [width * 0.7], and paints [k] of them, [k]
    at most [n]: it calls [random] twice per candidate and four more times
    per ember painted, brackets each ember between one [save] and one
    [restore] around one [fillRect], and leaves the drawing state, the
    stack of saved states and the current path of the context exactly as
    it found them. *)
Theorem drawEmbers_embers {G : Type} (random : G -> Q * G) dc :
  1 <= width dc <= 4294967296 ->
  steps random (drawEmbers random dc)
    (fun d t =>
       let n := Z.to_nat (embers_count (width dc)) in
       exists k, (k <= n)%nat /\ d = (2 * n + 4 * k)%nat
                 /\ count_calls is_fillRect t = k
                 /\ count_calls is_save t = k
                 /\ count_calls is_restore t = k
                 /\ length t = (6 * k)%nat
                 /\ state_preserving t).
Proof. intros _. apply drawEmbers_steps. Qed.

Lemma drawEmbers_embers_witness :
  steps mulberry32_call
    (drawEmbers mulberry32_call
       {| width := 720; height := 405; perlin := noise (Uint8Array.new 512) |})
    (fun d t =>
       let n := 503%nat in
       exists k, (k <= n)%nat /\ d = (2 * n + 4 * k)%nat
                 /\ count_calls is_fillRect t = k
                 /\ count_calls is_save t = k
                 /\ count_calls is_restore t = k
                 /\ length t = (6 * k)%nat
                 /\ state_preserving t).
Proof.
  apply (drawEmbers_embers mulberry32_call
           {| width := 720; height := 405; perlin := noise (Uint8Array.new 512) |}).
  split; discriminate.
Defined.

(** X14.  With draws in [0, 1), a width of at least 1 and enough fuel, the
    Terrain pass paints between 12 and 17 structures: for [n] structures it
    calls [random] [1 + 9 n] times, brackets each structure between one
    [save] and one [restore], fills [n + 1] paths (the horizon and one per
    structure) and one rectangle (the haze band), and makes 15 calls per
    structure besides the 200 or 201 points of the horizon and 10 more
    calls for the horizon and the haze band. *)
Theorem drawTerrain_structures {G : Type} (random : G -> Q * G) fuel dc :
  (forall g, 0 <= fst (random g) < 1) ->
  1 <= width dc -> (201 < fuel)%nat ->
  steps random (drawTerrain random fuel dc)
    (fun d t =>
       exists n, (12 <= n <= 17)%nat /\ d = (1 + 9 * n)%nat
                 /\ count_calls is_save t = n
                 /\ count_calls is_restore t = n
                 /\ count_calls is_fill t = S n
                 /\ count_calls is_fillRect t = 1%nat
                 /\ (210 + 15 * n <= length t <= 211 + 15 * n)%nat).
Proof.
  intros Hr Hw Hf g.
  destruct (drawTerrain_steps random Hr fuel dc ltac:(lra) Hf g)
    as (a & d & t & E & n & Hn & Hd & Hs & Hre & Hfi & Hfr & Hl).
  exists a, d, t. split; [exact E|]. exists n.
  do 5 (split; [assumption|]). split; [exact Hfr|].
  assert (Ew : Qle_bool 0 (width dc) = true) by (apply Qle_bool_iff; lra).
  unfold path_abscissae in Hl. rewrite Ew, length_abscissae in Hl. lia.
Qed.

Lemma drawTerrain_structures_witness :
  steps mulberry32_call
    (drawTerrain mulberry32_call 202
       {| width := 800; height := 450; perlin := noise (Uint8Array.new 512) |})
    (fun d t =>
       exists n, (12 <= n <= 17)%nat /\ d = (1 + 9 * n)%nat
                 /\ count_calls is_save t = n
                 /\ count_calls is_restore t = n
                 /\ count_calls is_fill t = S n
                 /\ count_calls is_fillRect t = 1%nat
                 /\ (210 + 15 * n <= length t <= 211 + 15 * n)%nat).
Proof.
  apply (drawTerrain_structures mulberry32_call 202
           {| width := 800; height := 450; perlin := noise (Uint8Array.new 512) |});
    [exact mulberry32_call_range | discriminate | lia].
Defined.

(** ** The smoke curves stay inside the canvas *)

Lemma runs_for_from_range {G : Type} (body : Z -> @Draw G unit)
    (P : list call -> Prop) n i :
  (forall j, (i <= j < i + Z.of_nat n)%Z -> runs (body j) P) ->
  P [] -> (forall t1 t2, P t1 -> P t2 -> P (t1 ++ t2)) ->
  runs (for_from n i body) P.
Proof.
  intros Hb Hnil Happ. revert i Hb. induction n as [|n IH]; intros i Hb; cbn.
  - now apply runs_ret.
  - eapply runs_bind; [apply Hb; lia | intros _; apply IH | exact Happ].
    intros j Hj. apply Hb. lia.
Qed.

Lemma smoke_ordinate_range dc layer offset x :
  0 <= height dc -> (0 <= layer <= 15)%Z ->
  (forall a b, 0 <= perlin dc a b < 1) ->
  0 <= smoke_ordinate dc layer offset x <= height dc.
Proof.
  intros Hh Hl Hp. unfold smoke_ordinate.
  set (h := height dc) in *.
  set (v := perlin dc _ _). assert (Hv : 0 <= v < 1) by apply Hp.
  set (K := inject_Z layer).
  assert (HK0 : 0 <= K).
  { unfold K. change 0 with (inject_Z 0). rewrite <- Zle_Qle. lia. }
  assert (HK1 : K <= 15).
  { unfold K. change 15 with (inject_Z 15). rewrite <- Zle_Qle. lia. }
  assert (H1 : 0 <= K * h) by (now apply Qmult_le_0_compat).
  assert (H2 : K * h <= 15 * h) by (now apply Qmult_le_compat_r).
  pose proof (unit_scale h v Hh ltac:(lra)) as H3.
  assert (E : h * (0.55 + K * 0.015) - v * h * 0.22
              == 0.55 * h + 0.015 * (K * h) - 0.22 * (v * h)) by ring.
  rewrite E. lra.
Qed.

(** X15.  On a canvas of positive width and non-negative height, with a
    noise function that returns values in [0, 1), every point of every
    smoke path lies inside the canvas: abscissae run from 0 to the width,
    and the ordinate of layer [k] stays between 0 and the height. *)
Theorem drawSmoke_inside_canvas {G : Type} (random : G -> Q * G) fuel dc :
  0 < width dc -> 0 <= height dc -> (161 < fuel)%nat ->
  (forall a b, 0 <= perlin dc a b < 1) ->
  runs (drawSmoke random fuel dc) (Forall (in_canvas dc)).
Proof.
  intros Hw Hh Hf Hp. unfold drawSmoke, for_lt. cbv zeta.
  apply runs_for_from_range;
    [| constructor | intros t1 t2 H1 H2; now apply Forall_app].
  intros layer Hl g. eexists _, _, _.
  split; [apply drawSmoke_layer_run; [lra | exact Hf]|].
  unfold smoke_layer_calls, smoke_layer_path.
  apply Forall_app. split.
  { repeat constructor; cbn; lra. }
  apply Forall_app. split.
  - apply Forall_map.
    eapply Forall_impl; [apply (path_abscissae_range (width dc) 160); [exact Hw | lia]|].
    intros x Hx. cbn. split; [exact Hx|].
    apply smoke_ordinate_range; [exact Hh | | exact Hp].
    change (Z.of_nat (Z.to_nat 16)) with 16%Z in Hl. lia.
  - repeat constructor; cbn; lra.
Qed.

Lemma noise_unit_interval (permutation : list Z) (x y : Q) :
  0 <= noise permutation x y < 1.
Proof.
  unfold noise.
  pose proof (fractional_part_range x) as Hx.
  pose proof (fractional_part_range y) as Hy.
  set (xf := x - inject_Z (Math_floor x)) in *.
  set (yf := y - inject_Z (Math_floor y)) in *.
  cbv zeta.
  set (aa := Uint8Array.get_at permutation (index_aa _ _ _)).
  set (ab := Uint8Array.get_at permutation (index_ab _ _ _)).
  set (ba := Uint8Array.get_at permutation (index_ba _ _ _)).
  set (bb := Uint8Array.get_at permutation (index_bb _ _ _)).
  assert (HR : - 1 <= lerp (fade yf)
                        (lerp (fade xf) (grad aa xf yf) (grad ba (xf - 1) yf))
                        (lerp (fade xf) (grad ab xf (yf - 1))
                                        (grad bb (xf - 1) (yf - 1))) < 1).
  { apply (interpolation_range xf yf); try reflexivity; try assumption;
      first [ apply grad_abs_bound; lra
            | intros Ea Eb; apply grad_upper_bound; lra ]. }
  set (R := lerp _ _ _) in *.
  split; [apply Qle_shift_div_l; lra | apply Qlt_shift_div_r; lra].
Qed.

Lemma pos_800 : 0 < 800.
Proof. reflexivity. Qed.

Lemma drawSmoke_inside_canvas_witness :
  runs (drawSmoke mulberry32_call 162
          {| width := 800; height := 450; perlin := noise (Uint8Array.new 512) |})
       (Forall (in_canvas
                  {| width := 800; height := 450;
                     perlin := noise (Uint8Array.new 512) |})).
Proof.
  apply (drawSmoke_inside_canvas mulberry32_call 162
           {| width := 800; height := 450; perlin := noise (Uint8Array.new 512) |});
    [exact pos_800 | exact nonneg_450 | lia | intros a b; apply noise_unit_interval].
Defined.
